(** * nematus/inference.py: batching, ordering and beam-search orchestration

    A shallow embedding of [InferenceModelSet] and [translate_file].

    - Python objects with mutable attributes ([InferenceModelSet]) and the
      side effects of the pipeline (writes to [output_file], logging, prints,
      construction of execution graphs, calls into [rnn_inference]) are
      threaded through a state-and-exception monad over a [world]: the model
      set plus a chronological trace of effects.
    - Python exceptions are the [Raise] outcome; [sys.exit(1)] raises
      [SystemExit 1], which nothing in this file catches.
    - Sizes ([beam_size], [minibatch_size], [maxibatch_size]) are natural
      numbers; floats (costs, [normalization_alpha]) are exact rationals
      [Qc], costs extended with [Infinity] (Python's [float('inf')]).
    - [time.time()] and the final speed report, which divides the number of
      translated sentences by the wall-clock duration, are left out of the
      model.
    - The functions of [rnn_inference] and [util] that this file calls are
      the fields of the class [Collaborators]; [util.read_all_lines] and the
      beam search of [rnn_inference] are also modelled from the
      specification, for the claims that are about what they do. Every
      such definition says so. *)

From Stdlib Require Import Ascii String QArith Qcanon.
From stdpp Require Import base tactics option list numbers strings sorting pretty.

Local Open Scope nat_scope.

(** ** Numpy and list helpers *)

Section sorting.
Context {A : Type} (le : A → A → bool).

(** Stable insertion: [x] goes in front of the first element it is [le]. *)
Fixpoint insert_by (x : A) (l : list A) : list A :=
  match l with
  | [] => [x]
  | y :: l' => if le x y then x :: y :: l' else y :: insert_by x l'
  end.

(** [sorted(l, key=...)]: a stable sort. *)
Definition sort_by (l : list A) : list A := foldr insert_by [] l.
End sorting.

(** [a.argsort()]: the indices that sort [a] in ascending order (ties keep
    their original order). *)
Definition argsort (a : list nat) : list nat :=
  sort_by (λ i j, bool_decide (a !!! i ≤ a !!! j)) (seq 0 (length a)).

(** The position at which [idxs] holds [i]: with [idxs] the permutation that
    [read_all_lines] returns, the slot of the sorted buffer that holds line
    [i] of the original buffer. *)
Definition slot_of (idxs : list nat) (i : nat) : nat :=
  from_option fst 0 (list_find (λ j, j = i) idxs).

(** [a[ixs]] with an integer index array: [None] is numpy's [IndexError]. *)
Definition fancy_index {A} (a : list A) (ixs : list nat) : option (list A) :=
  mapM (λ i, a !! i) ixs.

(** [[l[i:i+n] for i in range(0, len(l), n)]] for [n >= 1]. *)
Fixpoint slices_fuel {A} (fuel n : nat) (l : list A) : list (list A) :=
  match fuel, l with
  | S fuel', _ :: _ => take n l :: slices_fuel fuel' n (drop n l)
  | _, _ => []
  end.

Definition slices {A} (n : nat) (l : list A) : list (list A) :=
  slices_fuel (length l) n l.

(** The maxibatches of an input of [lines], for a capacity of [cap] lines
    ([maxibatch_size * minibatch_size]): consecutive runs of [cap]
    lines, the last one possibly shorter. A capacity of 0 is never reached,
    so everything read ends up in one maxibatch. *)
Definition maxibatches {A} (cap : nat) (lines : list A) : list (list A) :=
  if decide (cap = 0) then
    match lines with [] => [] | _ :: _ => [lines] end
  else slices cap lines.

(** Maxibatches with the number of lines that precede each of them. *)
Fixpoint numbered {A} (n : nat) (chunks : list (list A))
  : list (list A * nat) :=
  match chunks with
  | [] => []
  | c :: chunks => (c, n) :: numbered (n + length c) chunks
  end.

(** ** Text files *)

Definition newline : string := String "010"%char "".

(** The successive results of [readline()] on a file with the given content,
    up to end of file: every line keeps its newline; the last one may lack
    it. After these, [readline()] returns the empty string. *)
Fixpoint readlines (content : string) : list string :=
  match content with
  | "" => []
  | String c rest =>
      if decide (c = "010"%char) then newline :: readlines rest
      else match readlines rest with
           | [] => [String c ""]
           | line :: lines => String c line :: lines
           end
  end.

(** ** Costs *)

Inductive cost : Type :=
  | Finite (c : Qc)
  | Infinity.

Definition cost_le (a b : cost) : bool :=
  match a, b with
  | Finite x, Finite y => bool_decide (x ≤ y)%Qc
  | _, Infinity => true
  | Infinity, Finite _ => false
  end.

(** A hypothesis as returned to the caller: (translation, score). *)
Abbreviation Hypo := (list nat * cost)%type.
Abbreviation Beam := (list Hypo).

(** A source sentence: a sequence of tokens, each a tuple of factor ids. *)
Abbreviation Sentence := (list (list nat)).

(** ** Exceptions and the effect monad *)

Inductive exn : Type :=
  | SystemExit (status : Z)
  | IndexError
  | ValueError
  | DataError (msg : string).      (* exception.Error *)

Inductive result (A : Type) : Type :=
  | Return (a : A)
  | Raise (e : exn).
Arguments Return {A} a.
Arguments Raise {A} e.

(** Modelled from the spec: the class [rnn_inference.BeamSearchGraph] is not
    part of this file's source; the specification describes it as a cache
    entry holding (key, compiled plan), keyed by [beam_size] and built for
    the current scorer set. *)
Record BeamSearchGraph (Model : Type) : Type := new_BeamSearchGraph {
  graph_models : list Model;
  graph_beam_size : nat;
}.
Arguments new_BeamSearchGraph {Model} _ _.
Arguments graph_models {Model} _.
Arguments graph_beam_size {Model} _.

(** The collaborators of this file: opaque data ([Model], [Config], the
    TensorFlow [Session], numpy arrays [X] and [XMask], alignment rows,
    dictionaries) and the functions of [rnn_inference] and [util] that
    [inference.py] calls. *)
Class Collaborators : Type := {
  Model : Type;
  Config : Type;
  Session : Type;
  X : Type;
  XMask : Type;
  Align : Type;
  SampleGraph : Type;
  SampleOut : Type;
  Dict : Type;
  (** [rnn_inference.SampleGraph(model)] and [rnn_inference.sample(...)]. *)
  new_SampleGraph : Model → SampleGraph;
  rnn_sample : Session → Model → X → XMask → SampleGraph → bool → SampleOut;
  (** [rnn_inference.beam_search(session, models, x, x_mask, beam_size,
      normalization_alpha, graph, return_alignments)]: the beams, one per
      sentence of the batch, and the alignment array. *)
  rnn_beam_search :
    Session → list Model → X → XMask → nat → Qc → BeamSearchGraph Model →
    bool → list Beam * list (list Align);
  (** [util.prepare_data(x, y, factors, maxlen=None)]: only the first two
      components of its result are used. *)
  prepare_data : list Sentence → list (list Z) → nat → X * XMask;
  (** [util.seq2words], [util.load_dictionaries], [str] on a float, the
      per-line parsing step of [util.read_all_lines], and two attributes of
      a config. *)
  seq2words : list nat → Dict → string;
  load_dictionaries : Config → Dict * Dict * Dict * Dict;
  str_cost : cost → string;
  parse_sentence : Config → string → string + Sentence;
  factors : Config → nat;
  translation_maxlen : Config → nat;
}.

Section Inference.
Context `{Collaborators}.

(** *** class InferenceModelSet *)

Record InferenceModelSet : Type := mkInferenceModelSet {
  _models : list Model;
  _cached_sample_graph : option SampleGraph;
  _cached_beam_search_graph : option (BeamSearchGraph Model);
}.

(** The effects of this file, and markers for the calls it makes:
    [BuildSampleGraph] and [BuildBeamSearchGraph] are the constructions of
    an execution graph, [RunSample] and [RunBeamSearch] the calls of
    [rnn_inference.sample] and [rnn_inference.beam_search],
    [EnterTranslateMaxibatch] a call of [translate_maxibatch]; [LogError],
    [LogCap] and [LogTranslated] are the calls of [logging];
    [PrintScoresShape], [PrintAlignmentHeader] and [PrintAlignment] the
    calls of [print]; [Write] is [output_file.write]. *)
Inductive event : Type :=
  | BuildSampleGraph (model : Model)
  | BuildBeamSearchGraph (models : list Model) (beam_size : nat)
  | RunSample (model : Model) (x : X) (x_mask : XMask)
  | RunBeamSearch (x : X) (x_mask : XMask) (beam_size : nat)
      (normalization_alpha : Qc) (graph : BeamSearchGraph Model)
  | EnterTranslateMaxibatch (maxibatch : list string)
      (num_prev_translated : nat)
  | LogError (msg : string)
  | LogCap (maxlen : nat)
  | LogTranslated (num_translated : nat)
  | PrintScoresShape (scores : list (list Align))
  | PrintAlignmentHeader (i j : nat)
  | PrintAlignment (a : Align)
  | Write (line : string).

Record world : Type := mkWorld {
  model_set : InferenceModelSet;
  trace : list event;
}.

Definition M (A : Type) : Type := world → result A * world.

#[global] Instance M_ret : MRet M := λ A a w, (Return a, w).
#[global] Instance M_bind : MBind M := λ A B f m w,
  match m w with
  | (Return a, w') => f a w'
  | (Raise e, w') => (Raise e, w')
  end.

Definition raise {A} (e : exn) : M A := λ w, (Raise e, w).
Definition emit (e : event) : M unit :=
  λ w, (Return (), mkWorld (model_set w) (trace w ++ [e])).
Definition get_self : M InferenceModelSet := λ w, (Return (model_set w), w).
Definition set_self (s : InferenceModelSet) : M unit :=
  λ w, (Return (), mkWorld s (trace w)).

(** [for a in l: body(a)] *)
Fixpoint for_each {A} (l : list A) (body : A → M unit) : M unit :=
  match l with
  | [] => mret ()
  | a :: l' => body a;; for_each l' body
  end.

Definition __init__ (models : list Model) (configs : list Config)
  : InferenceModelSet :=
  mkInferenceModelSet models None None.

Definition sample (session : Session) (x : X) (x_mask : XMask)
    (return_alignments : option bool) : M SampleOut :=
  let return_alignments := default false return_alignments in
  self ← get_self;
  match _models self with
  | [] => raise IndexError
  | model :: _ =>
      graph ← match _cached_sample_graph self with
              | None =>
                  emit (BuildSampleGraph model);;
                  let g := new_SampleGraph model in
                  set_self (mkInferenceModelSet (_models self) (Some g)
                              (_cached_beam_search_graph self));;
                  mret g
              | Some g => mret g
              end;
      emit (RunSample model x x_mask);;
      mret (rnn_sample session model x x_mask graph return_alignments)
  end.

Definition beam_search (session : Session) (x : X) (x_mask : XMask)
    (beam_size : nat) (normalization_alpha : option Qc)
    (return_alignments : option bool) : M (list Beam * list (list Align)) :=
  let normalization_alpha := default 0%Qc normalization_alpha in
  let return_alignments := default false return_alignments in
  self ← get_self;
  graph ← match _cached_beam_search_graph self with
          | Some g =>
              if decide (graph_beam_size g ≠ beam_size) then
                emit (BuildBeamSearchGraph (_models self) beam_size);;
                let g' := new_BeamSearchGraph (_models self) beam_size in
                set_self (mkInferenceModelSet (_models self)
                            (_cached_sample_graph self) (Some g'));;
                mret g'
              else mret g
          | None =>
              emit (BuildBeamSearchGraph (_models self) beam_size);;
              let g' := new_BeamSearchGraph (_models self) beam_size in
              set_self (mkInferenceModelSet (_models self)
                          (_cached_sample_graph self) (Some g'));;
              mret g'
          end;
  emit (RunBeamSearch x x_mask beam_size normalization_alpha graph);;
  mret (rnn_beam_search session (_models self) x x_mask beam_size
          normalization_alpha graph return_alignments).

(** *** util.read_all_lines *)

(** The parsing loop of [read_all_lines]: the first malformed sentence
    raises [exception.Error]. *)
Fixpoint parse_all (config : Config) (sentences : list string)
  : exn + list Sentence :=
  match sentences with
  | [] => inr []
  | sent :: rest =>
      match parse_sentence config sent with
      | inl msg => inl (DataError msg)
      | inr line =>
          match parse_all config rest with
          | inl e => inl e
          | inr lines => inr (line :: lines)
          end
      end
  end.

(** Modelled from the spec: [util.read_all_lines] is not part of this
    file's source. The specification has it sort the buffer by sentence
    length ascending and return the minibatches obtained by slicing the
    sorted buffer into chunks of [minibatch_size], together with the
    permutation [idxs] such that [sortedBuffer[i] = original[idxs[i]]];
    malformed input raises the data-format error. A chunk size of 0 is the
    [ValueError] of Python's [range]. *)
Definition read_all_lines (config : Config) (sentences : list string)
    (batch_size : nat) : exn + (list (list Sentence) * list nat) :=
  match parse_all config sentences with
  | inl e => inl e
  | inr lines =>
      let lengths := length <$> lines in
      let idxs := argsort lengths in
      let lines := (λ i, lines !!! i) <$> idxs in
      if decide (batch_size = 0) then inl ValueError
      else inr (slices batch_size lines, idxs)
  end.

(** *** translate_file *)

Definition enumerate {A} (l : list A) : list (nat * A) :=
  zip (seq 0 (length l)) l.

Section translate_file_body.
(** The parameters of [translate_file] that its nested functions capture,
    after defaults have been filled in; [config0] is [configs[0]]. *)
Variables (session : Session) (config0 : Config).
Variables (beam_size : nat) (nbest : bool).
Variables (minibatch_size maxibatch_size : nat).
Variables (normalization_alpha : Qc) (return_alignments : bool).

Definition print_alignments (alignments : list (list Align))
    (models : nat) : M unit :=
  for_each (seq 0 (length alignments)) (λ i,
    for_each (seq 0 models) (λ j,
      emit (PrintAlignmentHeader i j);;
      match alignments !! i ≫= (.!! j) with
      | Some a => emit (PrintAlignment a)
      | None => raise IndexError
      end)).

(** The loop [for x in minibatches] of [translate_maxibatch], with the
    lists [beams] and [alignments] it extends. *)
Fixpoint translate_minibatches (minibatches : list (list Sentence))
    (num_prev_translated : nat) (beams : list Beam)
    (alignments : list (list Align))
  : M (list Beam * list (list Align)) :=
  match minibatches with
  | [] => mret (beams, alignments)
  | x :: rest =>
      let y_dummy := replicate (length x) [0%Z] in
      let '(x, x_mask) := prepare_data x y_dummy (factors config0) in
      '(sample, scores) ← beam_search session x x_mask beam_size
                            (Some normalization_alpha)
                            (Some return_alignments);
      emit (PrintScoresShape scores);;
      let beams := beams ++ sample in
      let alignments := alignments ++ scores in
      let num_translated := num_prev_translated + length beams in
      emit (LogTranslated num_translated);;
      translate_minibatches rest num_prev_translated beams alignments
  end.

Definition nbest_line (num_to_target : Dict) (num : nat) (h : Hypo)
  : string :=
  let '(sent, cost) := h in
  let translation := seq2words sent num_to_target in
  pretty num +:+ " ||| " +:+ translation +:+ " ||| " +:+ str_cost cost
    +:+ newline.

Definition best_line (num_to_target : Dict) (h : Hypo) : string :=
  let '(best_hypo, cost) := h in
  seq2words best_hypo num_to_target +:+ newline.

(** The body of [for i, beam in enumerate(ordered_beams)]. *)
Definition write_beam (num_to_target : Dict) (num_prev_translated : nat)
    (i : nat) (beam : Beam) : M unit :=
  if nbest then
    let num := num_prev_translated + i in
    for_each beam (λ h, emit (Write (nbest_line num_to_target num h)))
  else
    match beam with
    | [] => raise IndexError
    | h :: _ => emit (Write (best_line num_to_target h))
    end.

Definition translate_maxibatch (maxibatch : list string)
    (num_to_target : Dict) (num_prev_translated : nat) : M unit :=
  emit (EnterTranslateMaxibatch maxibatch num_prev_translated);;
  match read_all_lines config0 maxibatch minibatch_size with
  | inl (DataError msg) => emit (LogError msg);; raise (SystemExit 1)
  | inl e => raise e
  | inr (minibatches, idxs) =>
      '(beams, alignments) ←
        translate_minibatches minibatches num_prev_translated [] [];
      (if return_alignments then
         self ← get_self;
         print_alignments alignments (length (_models self))
       else mret ());;
      match fancy_index beams (argsort idxs) with
      | None => raise IndexError
      | Some ordered_beams =>
          for_each (enumerate ordered_beams) (λ '(i, beam),
            write_beam num_to_target num_prev_translated i beam)
      end
  end.

(** What the loop does once [readline()] has returned the empty string. *)
Definition at_end_of_input (num_to_target : Dict) (num_translated : nat)
    (maxibatch : list string) : M nat :=
  if decide (0 < length maxibatch) then
    translate_maxibatch maxibatch num_to_target num_translated;;
    mret (num_translated + length maxibatch)
  else mret num_translated.

(** The [while True] loop. [input_file] holds the lines [readline()] has
    yet to return; the result is the final value of [num_translated]. *)
Fixpoint read_loop (input_file : list string) (num_to_target : Dict)
    (num_translated : nat) (maxibatch : list string) : M nat :=
  match input_file with
  | [] => at_end_of_input num_to_target num_translated maxibatch
  | line :: input_file =>
      if decide (line = "") then
        at_end_of_input num_to_target num_translated maxibatch
      else
        let maxibatch := maxibatch ++ [line] in
        if decide (length maxibatch = maxibatch_size * minibatch_size)
        then
          translate_maxibatch maxibatch num_to_target num_translated;;
          read_loop input_file num_to_target
            (num_translated + length maxibatch) []
        else read_loop input_file num_to_target num_translated maxibatch
  end.

(** The loop as a sequence of calls of [translate_maxibatch], one per
    maxibatch; [read_loop_maxibatches] relates the two. *)
Fixpoint run_maxibatches (chunks : list (list string))
    (num_to_target : Dict) (num_translated : nat) : M nat :=
  match chunks with
  | [] => mret num_translated
  | maxibatch :: chunks =>
      translate_maxibatch maxibatch num_to_target num_translated;;
      run_maxibatches chunks num_to_target
        (num_translated + length maxibatch)
  end.
End translate_file_body.

(** [translate_file]: [input_file] is the content still to be read; the
    lines written to [output_file] are the [Write] events of the final
    trace. The result is the final [num_translated]. *)
Definition translate_file (input_file : string) (session : Session)
    (models : list Model) (configs : list Config)
    (beam_size : option nat) (nbest : option bool)
    (minibatch_size maxibatch_size : option nat)
    (normalization_alpha : option Qc) (return_alignments : option bool)
  : result nat * world :=
  let beam_size := default 12 beam_size in
  let nbest := default false nbest in
  let minibatch_size := default 80 minibatch_size in
  let maxibatch_size := default 20 maxibatch_size in
  let normalization_alpha := default 1%Qc normalization_alpha in
  let return_alignments := default false return_alignments in
  let body : M nat :=
    match configs with
    | [] => raise IndexError
    | config0 :: _ =>
        let '(_, _, _, num_to_target) := load_dictionaries config0 in
        emit (LogCap (translation_maxlen config0));;
        read_loop session config0 beam_size nbest minibatch_size
          maxibatch_size normalization_alpha return_alignments
          (readlines input_file) num_to_target 0 []
    end in
  body (mkWorld (__init__ models configs) []).

(** The lines written to [output_file], in order. *)
Definition written (tr : list event) : list string :=
  omap (λ e, match e with Write line => Some line | _ => None end) tr.

(** Number of beam-search graphs constructed along a trace. *)
Definition graphs_built (tr : list event) : nat :=
  length (omap (λ e, match e with
                     | BuildBeamSearchGraph _ k => Some k
                     | _ => None
                     end) tr).

(** The calls of [translate_maxibatch] along a trace: the maxibatch and
    the number of previously translated sentences it was given. *)
Definition entered (tr : list event) : list (list string * nat) :=
  omap (λ e, match e with
             | EnterTranslateMaxibatch maxibatch n => Some (maxibatch, n)
             | _ => None
             end) tr.

(** The [normalization_alpha] of every search run along a trace. *)
Definition search_alphas (tr : list event) : list Qc :=
  omap (λ e, match e with
             | RunBeamSearch _ _ _ alpha _ => Some alpha
             | _ => None
             end) tr.

(** The events of [translate_maxibatch] before it writes: graph
    constructions, search runs (with the given [normalization_alpha]),
    progress and error logs, prints. *)
Definition search_event (alpha : Qc) (e : event) : Prop :=
  match e with
  | BuildBeamSearchGraph _ _ | LogTranslated _ | LogError _
  | PrintScoresShape _ | PrintAlignmentHeader _ _ | PrintAlignment _ => True
  | RunBeamSearch _ _ _ a _ => a = alpha
  | _ => False
  end.

(** The events of [translate_maxibatch] after it has been entered. *)
Definition maxibatch_event (alpha : Qc) (e : event) : Prop :=
  match e with
  | Write _ => True
  | _ => search_event alpha e
  end.

(** A model set as [translate_file] uses it: its models are [models] and
    a cached beam-search graph was built for them. *)
Definition ready (models : list Model) (w : world) : Prop :=
  _models (model_set w) = models ∧
  ∀ g, _cached_beam_search_graph (model_set w) = Some g →
       graph_models g = models.

(** [m] only appends events that satisfy [P] to the trace. *)
Definition appends {A} (P : event → Prop) (m : M A) : Prop :=
  ∀ w, ∃ evs, trace (m w).2 = trace w ++ evs ∧ Forall P evs.

(** The lines that [write_beam] writes for the beam at position [i]. *)
Definition beam_lines (nbest : bool) (num_to_target : Dict)
    (num_prev_translated i : nat) (beam : Beam) : list string :=
  if nbest then nbest_line num_to_target (num_prev_translated + i) <$> beam
  else match beam with
       | [] => []
       | h :: _ => [best_line num_to_target h]
       end.

(** *** Reference definitions for the statements about [translate_file] *)

Section reference.
Variables (session : Session) (config0 : Config) (models : list Model).
Variables (beam_size minibatch_size maxibatch_size : nat).
Variables (normalization_alpha : Qc) (return_alignments : bool).

(** What the search returns for one minibatch [x] of sentences, as
    [translate_maxibatch] calls it. *)
Definition search_minibatch (x : list Sentence)
  : list Beam * list (list Align) :=
  let y_dummy := replicate (length x) [0%Z] in
  let '(x, x_mask) := prepare_data x y_dummy (factors config0) in
  rnn_beam_search session models x x_mask beam_size normalization_alpha
    (new_BeamSearchGraph models beam_size) return_alignments.

(** The documented result of a search ("one list for each input sentence
    in the batch", "the inner lists contain k elements (where k is the
    beam size)"), and an alignment array with one entry per model for
    every row, when alignments are asked for. *)
Definition search_contract : Prop :=
  ∀ x : list Sentence,
    length (search_minibatch x).1 = length x ∧
    Forall (λ beam : Beam, length beam = beam_size)
      (search_minibatch x).1 ∧
    (return_alignments = true →
     Forall (λ row : list Align, length models ≤ length row)
       (search_minibatch x).2).

(** The beam that the search returned for line [i] of a maxibatch:
    [read_all_lines] sorted the maxibatch and moved the line to the slot
    [k] with [idxs[k] = i]; the beams of the minibatches, concatenated,
    have the beam of slot [k] at [k]. *)
Definition maxibatch_translation (maxibatch : list string) (i : nat)
  : Beam :=
  match read_all_lines config0 maxibatch minibatch_size with
  | inr (minibatches, idxs) =>
      let beams := minibatches ≫= λ x, (search_minibatch x).1 in
      beams !!! slot_of idxs i
  | inl _ => []
  end.

(** The sentence that the search was given in that slot. *)
Definition maxibatch_sentence (maxibatch : list string) (i : nat)
  : option Sentence :=
  match read_all_lines config0 maxibatch minibatch_size with
  | inr (minibatches, idxs) => concat minibatches !! slot_of idxs i
  | inl _ => None
  end.

(** The lines written for a maxibatch, in the order of its lines. *)
Definition maxibatch_lines (nbest : bool) (num_to_target : Dict)
    (maxibatch : list string) (n : nat) : list string :=
  seq 0 (length maxibatch) ≫= λ i,
    beam_lines nbest num_to_target n i (maxibatch_translation maxibatch i).

(** The same for line [i] of the input [lines]: the line is in maxibatch
    [i / cap], at position [i mod cap]. *)
Definition translation_of (lines : list string) (i : nat) : Beam :=
  let cap := maxibatch_size * minibatch_size in
  maxibatch_translation (maxibatches cap lines !!! (i / cap)) (i mod cap).

Definition sentence_of (lines : list string) (i : nat)
  : option Sentence :=
  let cap := maxibatch_size * minibatch_size in
  maxibatch_sentence (maxibatches cap lines !!! (i / cap)) (i mod cap).
End reference.

End Inference.

(** ** Further observations of a trace *)

Section observations.
Context `{Collaborators}.

(** Number of sample graphs constructed along a trace. *)
Definition sample_graphs_built (tr : list event) : nat :=
  length (omap (λ e, match e with
                     | BuildSampleGraph m => Some m
                     | _ => None
                     end) tr).

(** The calls of [rnn_inference.sample] along a trace: the model used. *)
Definition sample_runs (tr : list event) : list Model :=
  omap (λ e, match e with RunSample m _ _ => Some m | _ => None end) tr.

(** The calls of [rnn_inference.beam_search] along a trace: the beam size
    and the graph they were given. *)
Definition searches (tr : list event)
  : list (nat * BeamSearchGraph Model) :=
  omap (λ e, match e with
             | RunBeamSearch _ _ b _ g => Some (b, g)
             | _ => None
             end) tr.

(** The counts of the progress log, "Translated {} sents". *)
Definition logged (tr : list event) : list nat :=
  omap (λ e, match e with LogTranslated n => Some n | _ => None end) tr.

(** Number of "scores {}" lines printed to standard output. *)
Definition scores_printed (tr : list event) : nat :=
  length (omap (λ e, match e with
                     | PrintScoresShape s => Some s
                     | _ => None
                     end) tr).

(** Number of lines that [print_alignments] printed. *)
Definition alignment_prints (tr : list event) : nat :=
  length (omap (λ e, match e with
                     | PrintAlignmentHeader _ _ | PrintAlignment _ => Some e
                     | _ => None
                     end) tr).

(** 1 when a beam-search graph is cached, 0 otherwise. *)
Definition cached_graphs (s : InferenceModelSet) : nat :=
  match _cached_beam_search_graph s with Some _ => 1 | None => 0 end.

(** [m] appends events and moves the model set in a way related by [R]. *)
Definition tracks {A}
    (R : InferenceModelSet → list event → InferenceModelSet → Prop)
    (m : M A) : Prop :=
  ∀ w, ∃ evs,
    trace (m w).2 = trace w ++ evs ∧ R (model_set w) evs (model_set (m w).2).

(** A model set as [translate_file] keeps it: the models it was created
    with, no sample graph, and no other beam-search graph than the one for
    these models and [beam_size]. *)
Definition file_model_set (models : list Model) (beam_size : nat)
    (s : InferenceModelSet) : Prop :=
  _models s = models
  ∧ _cached_sample_graph s = None
  ∧ ∀ g, _cached_beam_search_graph s = Some g →
         g = new_BeamSearchGraph models beam_size.

(** What a piece of [translate_file] may do between two states of the
    model set: it builds a graph exactly when it caches the first one,
    searches only on the graph for [models] and [beam_size], never samples,
    prints one "scores" line and one progress log per search, and prints
    alignments only when they were asked for. *)
Definition discipline (models : list Model) (beam_size : nat) (ra : bool)
    (s : InferenceModelSet) (evs : list event) (s' : InferenceModelSet)
  : Prop :=
  file_model_set models beam_size s →
  file_model_set models beam_size s'
  ∧ graphs_built evs + cached_graphs s = cached_graphs s'
  ∧ graphs_built evs ≤ length (searches evs)
  ∧ (cached_graphs s' = 0 → searches evs = [])
  ∧ Forall (λ r, r = (beam_size, new_BeamSearchGraph models beam_size))
      (searches evs)
  ∧ sample_graphs_built evs = 0
  ∧ sample_runs evs = []
  ∧ scores_printed evs = length (searches evs)
  ∧ length (logged evs) = length (searches evs)
  ∧ (ra = false → alignment_prints evs = 0).

(** Events that are neither a write, nor a search, nor a progress log. *)
Definition silent (e : event) : Prop :=
  written [e] = [] ∧ searches [e] = [] ∧ logged [e] = [].

(** The lines that [print_alignments] prints for the rows [alignments]
    and [models] models: for every row [i], for every model [j], a header
    with [i] and [j], then the entry [alignments[i][j]]. *)
Definition alignment_lines (alignments : list (list Align)) (models : nat)
  : list event :=
  enumerate alignments ≫= λ '(i, row),
    enumerate (take models row) ≫= λ '(j, a),
      [PrintAlignmentHeader i j; PrintAlignment a].

(** The inner loop of [print_alignments], [for j in range(models)], on the
    row [alignments[i]] ([None] when there is no such row). *)
Definition print_row (i : nat) (row : option (list Align)) (models : nat)
  : M unit :=
  for_each (seq 0 models) (λ j,
    emit (PrintAlignmentHeader i j);;
    match row ≫= (.!! j) with
    | Some a => emit (PrintAlignment a)
    | None => raise IndexError
    end).
End observations.

(** Running totals, as [num_prev_translated + len(beams)] takes them
    minibatch after minibatch: [n + s1], [n + s1 + s2], ... *)
Fixpoint running_totals (n : nat) (sizes : list nat) : list nat :=
  match sizes with
  | [] => []
  | s :: sizes => (n + s) :: running_totals (n + s) sizes
  end.

(** * The beam-search engine

    Modelled from the spec: [rnn_inference.beam_search] and the graph it runs
    are not part of this file's source. The definitions of this section
    follow the specification's description of the engine (state machine per
    sentence, step algorithm, termination, length normalization, output) and
    of the scorer interface. Alignment capture is left out. *)

Section BeamSearchEngine.
Context {Src Hidden : Type}.

(** Modelled from the spec: the scorer interface,
    [initialState(x, xMask) → hiddenStates] and
    [scoreStep(hiddenStates, previousTokens) → (logProbabilities,
    newHiddenStates, ...)], for one hypothesis: the previous token is
    [None] for the empty hypothesis; [logProbabilities] maps a token id
    to its log-probability. *)
Record Scorer : Type := mkScorer {
  initialState : Src → Hidden;
  scoreStep : Hidden → option nat → (nat → Qc) * Hidden;
}.

(** Modelled from the spec: a hypothesis is "a sequence of emitted
    target-vocabulary token ids, a cumulative score (lower is better), a
    termination flag", with the opaque hidden state of every scorer. *)
Record hypothesis : Type := mkHypothesis {
  tokens : list nat;
  score : cost;
  finished : bool;
  states : list Hidden;
}.

(** The target vocabulary is the token ids below [vocab_size]; [eos] is
    its end-of-sequence id; [float_pow len alpha] is [len ** alpha]. *)
Variables (vocab_size eos : nat) (float_pow : nat → Qc → Qc).

Definition cost_sub (c : cost) (q : Qc) : cost :=
  match c with
  | Finite x => Finite (x - q)
  | Infinity => Infinity
  end.

(** Modelled from the spec: "query every Scorer for next-token
    log-probabilities conditioned on that hypothesis's state". *)
Definition query (scorers : list Scorer) (h : hypothesis)
  : list ((nat → Qc) * Hidden) :=
  zip_with (λ s st, scoreStep s st (last (tokens h))) scorers (states h).

(** Modelled from the spec: "sum per-scorer log-probabilities per
    candidate token". *)
Definition ensemble_logprob (answers : list ((nat → Qc) * Hidden))
    (tok : nat) : Qc :=
  foldr (λ a acc, a.1 tok + acc)%Qc 0%Qc answers.

(** Modelled from the spec: "candidate cost = current hypothesis cost −
    log-probability"; a hypothesis that selects [eos] is FINISHED. *)
Definition expand (scorers : list Scorer) (h : hypothesis)
  : list hypothesis :=
  let answers := query scorers h in
  (λ tok, mkHypothesis (tokens h ++ [tok])
            (cost_sub (score h) (ensemble_logprob answers tok))
            (bool_decide (tok = eos))
            (snd <$> answers)) <$> seq 0 vocab_size.

(** Modelled from the spec: a FINISHED hypothesis is "excluded from
    further expansion but remains in the beam occupying one of its
    slots"; every ACTIVE one is expanded by every candidate token. *)
Definition candidates (scorers : list Scorer) (beam : list hypothesis)
  : list hypothesis :=
  beam ≫= λ h, if finished h then [h] else expand scorers h.

Definition score_le (a b : hypothesis) : bool := cost_le (score a) (score b).

(** Modelled from the spec: "keep the beam_size lowest-cost candidates,
    replacing the sentence's beam". *)
Definition step (scorers : list Scorer) (beam_size : nat)
    (beam : list hypothesis) : list hypothesis :=
  take beam_size (sort_by score_le (candidates scorers beam)).

(** Modelled from the spec: a beam is a fixed-capacity collection of
    [beam_size] slots, "padded with incomplete/worst hypotheses";
    hypotheses are "created empty at the start of search". The first slot
    holds the empty hypothesis at cost 0, the other slots empty
    hypotheses of the worst cost. *)
Definition initial_beam (scorers : list Scorer) (beam_size : nat)
    (src : Src) : list hypothesis :=
  (λ i, mkHypothesis []
          (if decide (i = 0) then Finite 0 else Infinity)
          false
          ((λ s, initialState s src) <$> scorers)) <$> seq 0 beam_size.

(** Modelled from the spec: "search for a sentence stops when either all
    beam_size slots are FINISHED or the hypothesis length reaches the
    configured maximum translation length". *)
Fixpoint search (scorers : list Scorer) (beam_size maxlen : nat)
    (beam : list hypothesis) : list hypothesis :=
  match maxlen with
  | 0 => beam
  | S maxlen' =>
      if forallb finished beam then beam
      else search scorers beam_size maxlen' (step scorers beam_size beam)
  end.

(** Modelled from the spec: "a FINISHED hypothesis's reported cost is
    divided by (hypothesis length)^normalizationAlpha". *)
Definition normalize (alpha : Qc) (h : hypothesis) : cost :=
  match score h with
  | Finite c => Finite (c / float_pow (length (tokens h)) alpha)
  | Infinity => Infinity
  end.

Definition reported (alpha : Qc) (h : hypothesis) : Hypo :=
  (tokens h, if finished h then normalize alpha h else score h).

Definition reported_le (a b : Hypo) : bool := cost_le a.2 b.2.

(** Modelled from the spec: "final Beam per sentence, sorted ascending by
    (normalized) cost". *)
Definition final_beam (alpha : Qc) (beam : list hypothesis) : Beam :=
  sort_by reported_le (reported alpha <$> beam).

(** Modelled from the spec: the search of one sentence, and of a batch of
    sentences (every sentence has a beam of its own). *)
Definition search_sentence (scorers : list Scorer)
    (beam_size : nat) (alpha : Qc) (maxlen : nat) (src : Src) : Beam :=
  final_beam alpha
    (search scorers beam_size maxlen (initial_beam scorers beam_size src)).

Definition engine_beam_search (scorers : list Scorer) (batch : list Src)
    (beam_size : nat) (alpha : Qc) (maxlen : nat) : list Beam :=
  search_sentence scorers beam_size alpha maxlen <$> batch.


End BeamSearchEngine.
Arguments Scorer : clear implicits.
Arguments hypothesis : clear implicits.

(** * A small instance

    A toy scorer and toy collaborators, on which the definitions above can
    be run: sentences are read one token per character, the search is the
    engine above over a vocabulary of three tokens. *)

Module Demo.
Definition vocab_size : nat := 3.
Definition eos : nat := 0.
Definition maxlen : nat := 4.

(** [len ** alpha] for the exponents 0 and 1. *)
Definition pow (len : nat) (alpha : Qc) : Qc :=
  if decide (alpha = 0%Qc) then 1%Qc else Qc_of_Z (Z.of_nat len).

(** The hidden state counts the source tokens still to translate; the
    scorer prefers token 1 or 2, by the parity of the state, and makes
    [eos] the dearer the more tokens are left. [penalty] is what the
    other tokens cost. *)
Definition scorer (penalty : Z) : Scorer Sentence nat :=
  {| initialState src := length src;
     scoreStep st prev :=
       (λ tok, if decide (tok = eos) then Qc_of_Z (- (1 + 2 * Z.of_nat st))
               else if decide (tok = 1 + st `mod` 2) then Qc_of_Z (- 1)
               else Qc_of_Z (- penalty),
        pred st) |}.

Definition parse (line : string) : string + Sentence :=
  let chars := list_ascii_of_string line in
  if decide ("|"%char ∈ chars)
  then inl "Expected 1 factors, but input word has 2"
  else inr ((λ c, [nat_of_ascii c]) <$>
            filter (λ c, c ≠ "010"%char ∧ c ≠ " "%char) chars).

Definition words (sent : list nat) : string :=
  String.concat " " (pretty <$> sent).

Definition str (c : cost) : string :=
  match c with
  | Finite q => pretty (Qnum q) +:+ "/" +:+ pretty (Zpos (Qden q))
  | Infinity => "inf"
  end.

Definition collaborators : Collaborators :=
  {| Model := Scorer Sentence nat;
     Config := unit;
     Session := unit;
     X := list Sentence;
     XMask := unit;
     Align := unit;
     SampleGraph := unit;
     SampleOut := list (list nat);
     Dict := unit;
     new_SampleGraph _ := ();
     rnn_sample _ model x _ _ _ := (λ src, [initialState model src]) <$> x;
     rnn_beam_search _ models x _ beam_size alpha _ _ :=
       (engine_beam_search vocab_size eos pow models x beam_size alpha
          maxlen, []);
     prepare_data x _ _ := (x, ());
     seq2words sent _ := words sent;
     load_dictionaries _ := ((), (), (), ());
     str_cost := str;
     parse_sentence _ := parse;
     factors _ := 1;
     translation_maxlen _ := maxlen |}.

(** Two lines, the longer one first: sorting by length swaps them. *)
Definition input : string := "ab" +:+ newline +:+ "c" +:+ newline.

(** Three lines, the second one malformed. *)
Definition bad_input : string :=
  "ab" +:+ newline +:+ "c|d" +:+ newline +:+ "e" +:+ newline.
End Demo.

(** * Properties *)

Section InferenceModelSet_properties.
Context `{Collaborators}.

Lemma graphs_built_app tr1 tr2 :
  graphs_built (tr1 ++ tr2) = graphs_built tr1 + graphs_built tr2.
Proof. unfold graphs_built. by rewrite omap_app, length_app. Qed.

(** What one call of [beam_search] does, by cases on the cache. *)
Lemma beam_search_run session x x_mask beam_size alpha ra w :
  let self := model_set w in
  let a := default 0%Qc alpha in
  let r := default false ra in
  beam_search session x x_mask beam_size alpha ra w =
  match _cached_beam_search_graph self with
  | Some g =>
      if decide (graph_beam_size g = beam_size) then
        (Return (rnn_beam_search session (_models self) x x_mask beam_size
                   a g r),
         mkWorld self (trace w ++ [RunBeamSearch x x_mask beam_size a g]))
      else
        let g' := new_BeamSearchGraph (_models self) beam_size in
        (Return (rnn_beam_search session (_models self) x x_mask beam_size
                   a g' r),
         mkWorld (mkInferenceModelSet (_models self)
                    (_cached_sample_graph self) (Some g'))
           ((trace w ++ [BuildBeamSearchGraph (_models self) beam_size])
              ++ [RunBeamSearch x x_mask beam_size a g']))
  | None =>
      let g' := new_BeamSearchGraph (_models self) beam_size in
      (Return (rnn_beam_search session (_models self) x x_mask beam_size
                 a g' r),
       mkWorld (mkInferenceModelSet (_models self)
                  (_cached_sample_graph self) (Some g'))
         ((trace w ++ [BuildBeamSearchGraph (_models self) beam_size])
            ++ [RunBeamSearch x x_mask beam_size a g']))
  end.
Proof.
  destruct w as [[ms sg [g|]] tr]; simpl; unfold beam_search; simpl;
    unfold mbind, M_bind; simpl; [|done].
  destruct (decide (graph_beam_size g ≠ beam_size)) as [Hne|Heq];
    destruct (decide (graph_beam_size g = beam_size)) as [He|Hn];
    simpl; done.
Qed.

End InferenceModelSet_properties.

(** ** Lines of a file *)

Lemma readlines_nonempty content : Forall (λ line, line ≠ "") (readlines content).
Proof.
  induction content as [|c rest IH]; simpl; [constructor|].
  destruct (decide (c = "010"%char)).
  - by constructor.
  - destruct (readlines rest) as [|line lines]; [by repeat constructor|].
    inversion_clear IH. by constructor.
Qed.

Lemma readlines_nil content : readlines content = [] ↔ content = "".
Proof.
  split; [|by intros ->].
  destruct content as [|c rest]; [done|simpl].
  destruct (decide (c = "010"%char)); [done|].
  by destruct (readlines rest).
Qed.

(** ** Sorting, [argsort] and the inverse permutation *)

Section sorting_facts.
Context {A : Type} (le : A → A → bool).

Lemma insert_by_Permutation x l : insert_by le x l ≡ₚ x :: l.
Proof.
  induction l as [|y l IH]; simpl; [done|].
  destruct (le x y); [done|]. by rewrite IH, Permutation_swap.
Qed.

Lemma sort_by_Permutation l : sort_by le l ≡ₚ l.
Proof.
  induction l as [|x l IH]; simpl; [done|].
  by rewrite insert_by_Permutation, IH.
Qed.

Lemma length_sort_by l : length (sort_by le l) = length l.
Proof. by rewrite sort_by_Permutation. Qed.

Hypothesis le_total : ∀ x y, le x y = false → le y x = true.

Lemma insert_by_Sorted x l :
  Sorted (λ a b, le a b = true) l →
  Sorted (λ a b, le a b = true) (insert_by le x l).
Proof.
  induction 1 as [|y l Hs IH Hhd]; simpl; [by repeat constructor|].
  destruct (le x y) eqn:Hxy.
  - by repeat constructor.
  - constructor; [done|].
    destruct Hhd as [|z l Hyz]; simpl; [by repeat constructor; auto|].
    destruct (le x z); constructor; auto.
Qed.

Lemma sort_by_Sorted l : Sorted (λ a b, le a b = true) (sort_by le l).
Proof.
  induction l as [|x l IH]; simpl; [constructor|].
  by apply insert_by_Sorted.
Qed.
End sorting_facts.

Lemma Sorted_le_seq j n : Sorted le (seq j n).
Proof.
  revert j. induction n as [|n IH]; intros j; simpl; [constructor|].
  constructor; [done|]. destruct n; simpl; constructor. lia.
Qed.

Lemma fmap_lookup_total_seq {A} `{Inhabited A} (l : list A) :
  (λ i, l !!! i) <$> seq 0 (length l) = l.
Proof.
  apply list_eq_same_length with (length l);
    [done|by rewrite length_fmap, length_seq|].
  intros i x y Hi. rewrite list_lookup_fmap, lookup_seq_lt by done. simpl.
  intros [= <-] Hy. by apply list_lookup_alt in Hy as [_ ->].
Qed.

Lemma argsort_Permutation a : argsort a ≡ₚ seq 0 (length a).
Proof. apply sort_by_Permutation. Qed.

Lemma length_argsort a : length (argsort a) = length a.
Proof. by rewrite argsort_Permutation, length_seq. Qed.

Lemma argsort_lt a i : i ∈ argsort a → i < length a.
Proof. rewrite argsort_Permutation, elem_of_seq. lia. Qed.

(** The keys read through [argsort] are in ascending order. *)
Lemma argsort_Sorted a : Sorted le ((λ i, a !!! i) <$> argsort a).
Proof.
  apply Sorted_fmap with (R1 := λ i j,
    bool_decide (a !!! i ≤ a !!! j) = true).
  - intros i j. by rewrite bool_decide_eq_true.
  - apply sort_by_Sorted. intros i j.
    rewrite bool_decide_eq_false, bool_decide_eq_true. lia.
Qed.

(** On a permutation of [0 .. n-1], [argsort] is the inverse permutation. *)
Lemma argsort_inverse idxs :
  idxs ≡ₚ seq 0 (length idxs) →
  (λ i, idxs !!! i) <$> argsort idxs = seq 0 (length idxs).
Proof.
  intros Hperm. apply (Sorted_unique le).
  - apply argsort_Sorted.
  - apply Sorted_le_seq.
  - rewrite argsort_Permutation, fmap_lookup_total_seq. done.
Qed.

Lemma argsort_inverse_lookup idxs j :
  idxs ≡ₚ seq 0 (length idxs) → j < length idxs →
  idxs !! (argsort idxs !!! j) = Some j.
Proof.
  intros Hperm Hj.
  assert (Hlt : argsort idxs !!! j < length idxs).
  { apply argsort_lt, list_elem_of_lookup_total_2. by rewrite length_argsort. }
  rewrite list_lookup_lookup_total_lt by done. f_equal.
  assert (Hinv : ((λ i, idxs !!! i) <$> argsort idxs) !!! j
                 = seq 0 (length idxs) !!! j)
    by (by rewrite argsort_inverse).
  rewrite (list_lookup_total_fmap (λ i, idxs !!! i) (argsort idxs) j) in Hinv
    by (by rewrite length_argsort).
  rewrite Hinv. by apply lookup_total_seq_lt.
Qed.

Lemma slot_of_argsort idxs j :
  idxs ≡ₚ seq 0 (length idxs) → j < length idxs →
  slot_of idxs j = argsort idxs !!! j.
Proof.
  intros Hperm Hj. unfold slot_of.
  pose proof (argsort_inverse_lookup idxs j Hperm Hj) as Hk.
  assert (Hnd : NoDup idxs) by (rewrite Hperm; apply NoDup_seq).
  assert (list_find (λ j', j' = j) idxs = Some (argsort idxs !!! j, j))
    as ->; [|done].
  apply list_find_Some. split_and!; [done..|].
  intros j' y Hj' Hlt ->.
  pose proof (NoDup_lookup _ _ _ _ Hnd Hj' Hk). lia.
Qed.

Lemma fancy_index_Some {A} `{Inhabited A} (a : list A) ixs :
  Forall (λ i, i < length a) ixs →
  fancy_index a ixs = Some ((λ i, a !!! i) <$> ixs).
Proof.
  intros Hix. apply mapM_Some_2. induction Hix as [|i ixs Hi _ IH]; simpl.
  - constructor.
  - constructor; [|done]. by apply list_lookup_lookup_total_lt.
Qed.

Lemma fancy_index_None {A} (a : list A) ixs i :
  i ∈ ixs → length a ≤ i → fancy_index a ixs = None.
Proof.
  intros Hi Hle. destruct (fancy_index a ixs) as [k|] eqn:Hk; [|done].
  apply mapM_Some in Hk.
  apply list_elem_of_lookup in Hi as [n Hn].
  destruct (Forall2_lookup_l _ _ _ _ _ Hk Hn) as (y & _ & Hy).
  apply lookup_lt_Some in Hy. lia.
Qed.

(** Indexing the beams of the sorted buffer with [argsort idxs] puts at
    position [i] the beam of the slot that holds line [i]. *)
Lemma fancy_index_argsort {A} `{Inhabited A} (beams : list A) idxs :
  idxs ≡ₚ seq 0 (length idxs) → length beams = length idxs →
  fancy_index beams (argsort idxs) =
  Some ((λ i, beams !!! slot_of idxs i) <$> seq 0 (length idxs)).
Proof.
  intros Hperm Hlen. rewrite fancy_index_Some.
  - f_equal. apply list_eq_same_length with (length idxs).
    + by rewrite length_fmap, length_seq.
    + by rewrite length_fmap, length_argsort.
    + intros i x y Hi. rewrite !list_lookup_fmap, lookup_seq_lt by done.
      rewrite (list_lookup_lookup_total_lt (argsort idxs))
        by (by rewrite length_argsort).
      simpl. intros [= <-] [= <-]. by rewrite slot_of_argsort.
  - apply Forall_forall. intros i Hi%argsort_lt. lia.
Qed.


(** ** Slices and maxibatches *)

Section slices_facts.
Context {A : Type}.
Implicit Types l c r : list A.

Lemma slices_fuel_enough n fuel fuel' l :
  0 < n → length l ≤ fuel → length l ≤ fuel' →
  slices_fuel fuel n l = slices_fuel fuel' n l.
Proof.
  intros Hn. revert fuel' l.
  induction fuel as [|fuel IH]; intros fuel' l Hf Hf'.
  - destruct l; simpl in *; [|lia]. by destruct fuel'.
  - destruct l as [|a l]; [by destruct fuel'|].
    destruct fuel' as [|fuel']; simpl in *; [lia|].
    f_equal. apply IH; rewrite length_drop; simpl; lia.
Qed.

Lemma slices_nil n : slices n ([] : list A) = [].
Proof. done. Qed.

Lemma slices_cons_take n l :
  0 < n → l ≠ [] → slices n l = take n l :: slices n (drop n l).
Proof.
  intros Hn Hl. destruct l as [|a l]; [done|]. unfold slices at 1. simpl.
  f_equal. apply slices_fuel_enough; [done| |done].
  rewrite length_drop. simpl. lia.
Qed.

Lemma slices_app_exact n c r :
  0 < n → length c = n → slices n (c ++ r) = c :: slices n r.
Proof.
  intros Hn Hc. rewrite slices_cons_take; [|done|].
  - by rewrite take_app_length', drop_app_length'.
  - destruct c; simpl in *; [lia|done].
Qed.

Lemma slices_short n l :
  0 < length l → length l ≤ n → slices n l = [l].
Proof.
  intros Hl Hn. rewrite slices_cons_take; [|lia|by destruct l; simpl in *; [lia|]].
  by rewrite take_ge, drop_ge by done.
Qed.

Lemma slices_spec n l :
  0 < n →
  concat (slices n l) = l ∧
  Forall (λ c, 0 < length c ≤ n) (slices n l).
Proof.
  intros Hn.
  remember (length l) as k eqn:Hk. revert l Hk.
  induction (lt_wf k) as [k _ IH]; intros l ->.
  destruct (decide (l = [])) as [->|Hl]; [by split; [|constructor]|].
  rewrite slices_cons_take by done. simpl.
  destruct (IH (length (drop n l))) with (l := drop n l) as [IH1 IH2];
    [|done|].
  { rewrite length_drop. destruct l; simpl in *; [done|lia]. }
  split.
  - by rewrite IH1, take_drop.
  - constructor; [|done]. rewrite length_take.
    destruct l; simpl in *; [done|lia].
Qed.

Lemma maxibatches_nil cap : maxibatches cap ([] : list A) = [].
Proof. unfold maxibatches. by destruct (decide (cap = 0)). Qed.

(** A buffer that has reached the capacity is a maxibatch of its own. *)
Lemma maxibatches_app_exact cap c r :
  0 < cap → length c = cap →
  maxibatches cap (c ++ r) = c :: maxibatches cap r.
Proof.
  intros Hcap Hc. unfold maxibatches.
  destruct (decide (cap = 0)); [lia|]. by apply slices_app_exact.
Qed.

(** What is left in the buffer at end of input is the last maxibatch. *)
Lemma maxibatches_short cap l :
  0 < length l → (cap = 0 ∨ length l ≤ cap) → maxibatches cap l = [l].
Proof.
  intros Hl Hcap. unfold maxibatches.
  destruct (decide (cap = 0)).
  - destruct l; simpl in *; [lia|done].
  - apply slices_short; [done|lia].
Qed.

Lemma maxibatches_spec cap l :
  concat (maxibatches cap l) = l ∧
  Forall (λ c, 0 < length c ∧ (0 < cap → length c ≤ cap))
    (maxibatches cap l).
Proof.
  unfold maxibatches. destruct (decide (cap = 0)) as [->|Hcap].
  - destruct l; simpl; [by split; [|constructor]|].
    rewrite app_nil_r. split; [done|].
    constructor; [simpl; lia|constructor].
  - destruct (slices_spec cap l) as [Hc Hf]; [lia|]. split; [done|].
    eapply Forall_impl; [done|]. simpl. lia.
Qed.
End slices_facts.

(** ** The effect monad *)

Section monad_facts.
Context `{Collaborators}.
Implicit Types (w : world) (P : event → Prop).

Lemma bind_run {A B} (m : M A) (f : A → M B) w :
  (m ≫= f) w = match m w with
               | (Return a, w') => f a w'
               | (Raise e, w') => (Raise e, w')
               end.
Proof. done. Qed.

Lemma world_eta w : mkWorld (model_set w) (trace w) = w.
Proof. by destruct w. Qed.

Lemma for_each_emit {A} (l : list A) (g : A → event) w :
  for_each l (λ a, emit (g a)) w =
  (Return (), mkWorld (model_set w) (trace w ++ (g <$> l))).
Proof.
  revert w. induction l as [|a l IH]; intros w; simpl.
  - by rewrite app_nil_r, world_eta.
  - rewrite bind_run. unfold emit at 1. rewrite IH. simpl.
    by rewrite <-app_assoc.
Qed.

Lemma appends_ret {A} P (a : A) : appends P (mret a : M A).
Proof. intros w. exists []. by rewrite app_nil_r. Qed.

Lemma appends_raise {A} P e : appends P (raise e : M A).
Proof. intros w. exists []. by rewrite app_nil_r. Qed.

Lemma appends_emit P e : P e → appends P (emit e).
Proof. intros He w. exists [e]. split; [done|by constructor]. Qed.

Lemma appends_get_self P : appends P get_self.
Proof. intros w. exists []. by rewrite app_nil_r. Qed.

Lemma appends_set_self P s : appends P (set_self s).
Proof. intros w. exists []. by rewrite app_nil_r. Qed.

Lemma appends_bind {A B} P (m : M A) (f : A → M B) :
  appends P m → (∀ a, appends P (f a)) → appends P (m ≫= f).
Proof.
  intros Hm Hf w. rewrite bind_run.
  destruct (Hm w) as (evs & Htr & Hevs).
  destruct (m w) as [[a|e] w']; simpl in *.
  - destruct (Hf a w') as (evs' & Htr' & Hevs').
    exists (evs ++ evs'). rewrite Htr', Htr, app_assoc.
    split; [done|]. by apply Forall_app.
  - by exists evs.
Qed.

Lemma appends_for_each {A} P (l : list A) (body : A → M unit) :
  (∀ a, appends P (body a)) → appends P (for_each l body).
Proof.
  intros Hbody. induction l as [|a l IH]; simpl.
  - apply appends_ret.
  - apply appends_bind; [done|]. by intros _.
Qed.

Lemma written_app tr1 tr2 : written (tr1 ++ tr2) = written tr1 ++ written tr2.
Proof. apply omap_app. Qed.

Lemma entered_app tr1 tr2 : entered (tr1 ++ tr2) = entered tr1 ++ entered tr2.
Proof. apply omap_app. Qed.

Lemma search_alphas_app tr1 tr2 :
  search_alphas (tr1 ++ tr2) = search_alphas tr1 ++ search_alphas tr2.
Proof. apply omap_app. Qed.

Lemma written_Write ls : written (Write <$> ls) = ls.
Proof. induction ls as [|l ls IH]; simpl; [done|]. by f_equal. Qed.

Lemma entered_Write ls : entered (Write <$> ls) = [].
Proof. by induction ls. Qed.

Lemma search_event_written alpha evs :
  Forall (search_event alpha) evs → written evs = [].
Proof.
  induction 1 as [|e evs He _ IH]; [done|].
  destruct e; simpl in He; try done; exact IH.
Qed.

Lemma maxibatch_event_entered alpha evs :
  Forall (maxibatch_event alpha) evs → entered evs = [].
Proof.
  induction 1 as [|e evs He _ IH]; [done|].
  destruct e; simpl in He; try done; exact IH.
Qed.

Lemma maxibatch_event_alphas alpha evs :
  Forall (maxibatch_event alpha) evs →
  Forall (λ a, a = alpha) (search_alphas evs).
Proof.
  induction 1 as [|e evs He _ IH]; [constructor|].
  destruct e; simpl in He; try done; try exact IH.
  by constructor.
Qed.

Lemma search_event_maxibatch_event alpha e :
  search_event alpha e → maxibatch_event alpha e.
Proof. by destruct e. Qed.
End monad_facts.

(** ** One maxibatch *)

Section translate_maxibatch_facts.
Context `{Collaborators}.
Variables (session : Session) (config0 : Config) (models : list Model).
Variables (beam_size : nat) (nbest : bool) (minibatch_size : nat).
Variables (alpha : Qc) (ra : bool) (num_to_target : Dict).
Implicit Types (w : world).

Local Abbreviation search :=
  (search_minibatch session config0 models beam_size alpha ra).
Local Abbreviation translate_maxibatch :=
  (translate_maxibatch session config0 beam_size nbest minibatch_size
     alpha ra).
Local Abbreviation translate_minibatches :=
  (translate_minibatches session config0 beam_size alpha ra).

Lemma ready_cached sg tr :
  ready models
    (mkWorld (mkInferenceModelSet models sg
                (Some (new_BeamSearchGraph models beam_size))) tr).
Proof. split; [done|]. by intros g [= <-]. Qed.

Lemma ready_init configs tr : ready models (mkWorld (__init__ models configs) tr).
Proof. by split. Qed.

(** Within [translate_file], every search runs on the graph built for
    [models] and [beam_size]. *)
Lemma beam_search_ready x x_mask w :
  ready models w →
  ∃ evs,
    beam_search session x x_mask beam_size (Some alpha) (Some ra) w =
      (Return (rnn_beam_search session models x x_mask beam_size alpha
                 (new_BeamSearchGraph models beam_size) ra),
       mkWorld (mkInferenceModelSet models
                  (_cached_sample_graph (model_set w))
                  (Some (new_BeamSearchGraph models beam_size)))
         (trace w ++ evs))
    ∧ Forall (search_event alpha) evs.
Proof.
  intros [Hm Hg]. rewrite beam_search_run.
  destruct w as [[ms sg bg] tr]; simpl in *. subst ms.
  destruct bg as [g|]; simpl.
  - destruct (decide (graph_beam_size g = beam_size)) as [He|Hn].
    + specialize (Hg g eq_refl). destruct g as [gm gb]; simpl in *.
      subst gm gb. eexists [_]. split; [done|]. by repeat constructor.
    + eexists [_; _]. rewrite <-app_assoc. split; [done|].
      by repeat constructor.
  - eexists [_; _]. rewrite <-app_assoc. split; [done|].
    by repeat constructor.
Qed.

Lemma translate_minibatches_run minibatches n beams alignments w :
  ready models w →
  ∃ evs w',
    translate_minibatches minibatches n beams alignments w =
      (Return (beams ++ (minibatches ≫= λ x, (search x).1),
               alignments ++ (minibatches ≫= λ x, (search x).2)), w')
    ∧ ready models w'
    ∧ trace w' = trace w ++ evs
    ∧ Forall (search_event alpha) evs.
Proof.
  revert beams alignments w.
  induction minibatches as [|x rest IH]; intros beams alignments w Hr.
  - exists [], w. simpl. rewrite !app_nil_r. by split_and!.
  - simpl. unfold search_minibatch at 1 3.
    destruct (prepare_data x _ _) as [x' x_mask].
    rewrite bind_run.
    destruct (beam_search_ready x' x_mask w Hr) as (evs & -> & Hevs).
    destruct (rnn_beam_search _ _ _ _ _ _ _ _) as [sample scores].
    repeat (rewrite bind_run; simpl).
    edestruct IH as (evs' & w' & Heq & Hr' & Htr & Hevs');
      [apply ready_cached|].
    rewrite Heq. clear Heq.
    exists (evs ++ [PrintScoresShape scores;
                    LogTranslated (n + length (beams ++ sample))] ++ evs'),
      w'.
    split_and!; [by rewrite <-!app_assoc|done| |].
    + rewrite Htr. simpl. by rewrite <-!app_assoc.
    + rewrite !Forall_app. split_and!; [done| |done].
      by repeat constructor.
Qed.

Lemma print_alignments_run alignments n w :
  Forall (λ row : list Align, n ≤ length row) alignments →
  ∃ evs,
    print_alignments alignments n w =
      (Return (), mkWorld (model_set w) (trace w ++ evs))
    ∧ Forall (search_event alpha) evs.
Proof.
  intros Hrows. unfold print_alignments.
  assert (Hseq : Forall (λ i, i < length alignments)
                   (seq 0 (length alignments))).
  { apply Forall_forall. intros i Hi%elem_of_seq. lia. }
  revert w. induction Hseq as [|i ixs Hi _ IH]; intros w; simpl.
  - exists []. by rewrite app_nil_r, world_eta.
  - rewrite bind_run.
    destruct (lookup_lt_is_Some_2 _ _ Hi) as [row Hrow].
    assert (Hn : n ≤ length row).
    { eapply Forall_forall in Hrows; [done|].
      by eapply list_elem_of_lookup_2. }
    assert (Hcols : Forall (λ j, j < length row) (seq 0 n)).
    { apply Forall_forall. intros j Hj%elem_of_seq. lia. }
    rewrite Hrow. simpl.
    assert (∃ evs, for_each (seq 0 n) (λ j,
              emit (PrintAlignmentHeader i j);;
              match row !! j with
              | Some a => emit (PrintAlignment a)
              | None => raise IndexError
              end) w = (Return (), mkWorld (model_set w) (trace w ++ evs))
            ∧ Forall (search_event alpha) evs) as (evs & -> & Hevs).
    { clear IH. revert w.
      induction Hcols as [|j js Hj _ IHj]; intros w; simpl.
      - exists []. by rewrite app_nil_r, world_eta.
      - rewrite !bind_run. simpl.
        destruct (lookup_lt_is_Some_2 _ _ Hj) as [a ->].
        unfold emit at 1. simpl.
        edestruct IHj as (evs & -> & Hevs). simpl.
        eexists (_ :: _ :: evs). rewrite <-!app_assoc. simpl.
        split; [done|]. by repeat constructor. }
    edestruct IH as (evs' & -> & Hevs'). simpl.
    exists (evs ++ evs'). rewrite app_assoc. split; [done|].
    by apply Forall_app.
Qed.

Lemma write_beam_run n i beam w :
  nbest = true ∨ beam ≠ [] →
  write_beam nbest num_to_target n i beam w =
    (Return (), mkWorld (model_set w)
       (trace w ++ (Write <$> beam_lines nbest num_to_target n i beam))).
Proof.
  unfold write_beam, beam_lines. intros Hb. destruct nbest.
  - rewrite (for_each_emit beam (λ h, Write (nbest_line _ _ h))).
    by rewrite <-list_fmap_compose.
  - destruct Hb as [?|Hb]; [done|]. by destruct beam.
Qed.

Lemma write_beams_run n (l : list (nat * Beam)) w :
  nbest = true ∨ Forall (λ p, p.2 ≠ []) l →
  for_each l (λ '(i, beam), write_beam nbest num_to_target n i beam) w =
    (Return (), mkWorld (model_set w)
       (trace w ++
        (Write <$> l ≫= λ '(i, beam),
           beam_lines nbest num_to_target n i beam))).
Proof.
  intros Hl. revert w. induction l as [|[i beam] l IH]; intros w.
  - simpl. by rewrite app_nil_r, world_eta.
  - cbn [for_each]. rewrite bind_run, write_beam_run.
    + rewrite IH; cbn [model_set trace].
      * by rewrite bind_cons, fmap_app, app_assoc.
      * destruct Hl as [?|Hl]; [by left|right]. by inversion Hl.
    + destruct Hl as [?|Hl]; [by left|right]. by inversion Hl.
Qed.
End translate_maxibatch_facts.

(** ** read_all_lines *)

Section read_all_lines_facts.
Context `{Collaborators}.
Implicit Types (config : Config) (sentences : list string).

Lemma parse_all_inr config sentences parsed :
  parse_all config sentences = inr parsed ↔
  Forall2 (λ s p, parse_sentence config s = inr p) sentences parsed.
Proof.
  revert parsed. induction sentences as [|s rest IH]; intros parsed; simpl.
  - split; [by intros [= <-]; constructor|by inversion 1].
  - split.
    + destruct (parse_sentence config s) as [msg|p] eqn:Hp; [done|].
      destruct (parse_all config rest) as [e|ps]; [done|].
      intros [= <-]. constructor; [done|]. by apply IH.
    + inversion 1 as [|? p ? ps Hp Hps]; subst. rewrite Hp.
      apply IH in Hps. by rewrite Hps.
Qed.

(** The first malformed sentence decides the error. *)
Lemma parse_all_error config good bad msg rest :
  Forall (λ s, ∃ p, parse_sentence config s = inr p) good →
  parse_sentence config bad = inl msg →
  parse_all config (good ++ bad :: rest) = inl (DataError msg).
Proof.
  intros Hgood Hbad. induction Hgood as [|s good [p Hp] _ IH]; simpl.
  - by rewrite Hbad.
  - by rewrite Hp, IH.
Qed.

Lemma read_all_lines_inr config sentences batch_size minibatches idxs :
  read_all_lines config sentences batch_size = inr (minibatches, idxs) →
  ∃ parsed,
    Forall2 (λ s p, parse_sentence config s = inr p) sentences parsed
    ∧ idxs = argsort (length <$> parsed)
    ∧ idxs ≡ₚ seq 0 (length idxs)
    ∧ length idxs = length sentences
    ∧ concat minibatches = (λ i, parsed !!! i) <$> idxs
    ∧ Forall (λ x, 0 < length x ≤ batch_size) minibatches.
Proof.
  unfold read_all_lines.
  destruct (parse_all config sentences) as [e|parsed] eqn:Hp; [done|].
  destruct (decide (batch_size = 0)) as [|Hb]; [done|].
  intros [= <- <-]. apply parse_all_inr in Hp. exists parsed.
  assert (Hlen : length (argsort (length <$> parsed)) = length sentences).
  { pose proof (Forall2_length _ _ _ Hp) as Hl.
    rewrite length_argsort, length_fmap. lia. }
  destruct (slices_spec batch_size
              ((λ i, parsed !!! i) <$> argsort (length <$> parsed)))
    as [Hc Hf]; [lia|].
  split_and!; try done.
  rewrite argsort_Permutation at 1. by rewrite length_argsort.
Qed.

Lemma read_all_lines_wf config sentences batch_size :
  0 < batch_size →
  Forall (λ s, ∃ p, parse_sentence config s = inr p) sentences →
  ∃ minibatches idxs,
    read_all_lines config sentences batch_size = inr (minibatches, idxs).
Proof.
  intros Hb Hwf. apply Forall_exists_Forall2_l in Hwf as [parsed Hp].
  apply parse_all_inr in Hp. unfold read_all_lines. rewrite Hp.
  destruct (decide (batch_size = 0)); [lia|]. eauto.
Qed.

Lemma read_all_lines_error config good bad msg rest batch_size :
  Forall (λ s, ∃ p, parse_sentence config s = inr p) good →
  parse_sentence config bad = inl msg →
  read_all_lines config (good ++ bad :: rest) batch_size =
  inl (DataError msg).
Proof.
  intros Hgood Hbad. unfold read_all_lines.
  by rewrite (parse_all_error _ _ _ msg).
Qed.
End read_all_lines_facts.

Lemma enumerate_fmap_seq_bind {A B} (f : nat → A) (g : nat → A → list B) k :
  enumerate (f <$> seq 0 k) ≫= (λ '(i, a), g i a) = seq 0 k ≫= λ i, g i (f i).
Proof.
  unfold enumerate. rewrite length_fmap, length_seq.
  generalize 0 as j. induction k as [|k IH]; intros j; [done|].
  cbn [seq fmap list_fmap zip zip_with]. rewrite !bind_cons. f_equal. apply IH.
Qed.

Lemma fancy_index_Forall {A} (P : A → Prop) (a r : list A) ixs :
  Forall P a → fancy_index a ixs = Some r → Forall P r.
Proof.
  intros Ha Hr%mapM_Some. induction Hr as [|i x ixs r Hi _ IH];
    constructor; [|done].
  eapply Forall_forall in Ha; [done|]. by eapply list_elem_of_lookup_2.
Qed.

Section translate_maxibatch_runs.
Context `{Collaborators}.
Variables (session : Session) (config0 : Config) (models : list Model).
Variables (beam_size : nat) (nbest : bool) (minibatch_size : nat).
Variables (alpha : Qc) (ra : bool) (num_to_target : Dict).
Implicit Types (w : world).

Local Abbreviation search :=
  (search_minibatch session config0 models beam_size alpha ra).
Local Abbreviation contract :=
  (search_contract session config0 models beam_size alpha ra).
Local Abbreviation beam_for :=
  (maxibatch_translation session config0 models beam_size minibatch_size
     alpha ra).
Local Abbreviation run_maxibatch :=
  (translate_maxibatch session config0 beam_size nbest minibatch_size
     alpha ra).
Local Abbreviation lines_of :=
  (maxibatch_lines session config0 models beam_size minibatch_size alpha ra
     nbest num_to_target).

Lemma contract_length (minibatches : list (list Sentence)) :
  contract →
  length (minibatches ≫= λ x, (search x).1) = length (concat minibatches).
Proof.
  intros Hc. induction minibatches as [|x rest IH]; [done|].
  rewrite bind_cons. simpl. rewrite !length_app, IH.
  by destruct (Hc x) as (-> & _).
Qed.

(** A well-formed maxibatch: every search runs, then every beam is
    written, in the order of the input lines. *)
Lemma translate_maxibatch_run maxibatch n w minibatches idxs :
  ready models w →
  read_all_lines config0 maxibatch minibatch_size = inr (minibatches, idxs) →
  contract →
  nbest = true ∨ 0 < beam_size →
  ∃ evs w',
    run_maxibatch maxibatch num_to_target n w = (Return (), w')
    ∧ ready models w'
    ∧ trace w' = trace w ++ EnterTranslateMaxibatch maxibatch n :: evs
                   ++ (Write <$> lines_of maxibatch n)
    ∧ Forall (search_event alpha) evs.
Proof.
  intros Hr Hread Hc Hbs. unfold translate_maxibatch.
  rewrite bind_run. unfold emit at 1. cbn [fst snd]. rewrite Hread.
  rewrite bind_run.
  edestruct (translate_minibatches_run session config0 models beam_size
               alpha ra minibatches n [] [])
    as (evs1 & w1 & -> & Hr1 & Htr1 & Hevs1);
    [split; [apply Hr|apply Hr]|].
  cbn [model_set trace] in Htr1. rewrite !app_nil_l.
  destruct (read_all_lines_inr _ _ _ _ _ Hread)
    as (parsed & Hp & _ & Hperm & Hlen & Hcat & _).
  rewrite bind_run.
  (* the alignments are printed *)
  assert (∃ evs2,
    (if ra then self ← get_self;
                print_alignments (minibatches ≫= λ x, (search x).2)
                  (length (_models self))
     else mret ()) w1
    = (Return (), mkWorld (model_set w1) (trace w1 ++ evs2))
    ∧ Forall (search_event alpha) evs2) as (evs2 & -> & Hevs2).
  { destruct ra eqn:Hra.
    - rewrite bind_run. unfold get_self. cbn [fst snd].
      destruct Hr1 as [-> _]. apply print_alignments_run.
      apply Forall_bind, Forall_forall. intros x _.
      by destruct (Hc x) as (_ & _ & Hrows); apply Hrows.
    - exists []. by rewrite app_nil_r, world_eta. }
  (* the beams are put back into the order of the input *)
  assert (Hbeams : length (minibatches ≫= λ x, (search x).1) = length idxs).
  { by rewrite contract_length, Hcat, length_fmap. }
  rewrite fancy_index_argsort by done.
  rewrite write_beams_run.
  - eexists (evs1 ++ evs2), _. split_and!; [done|..].
    + split; [apply Hr1|]. intros g Hg. by apply Hr1.
    + cbn [model_set trace]. rewrite Htr1, enumerate_fmap_seq_bind.
      rewrite <-!app_assoc. cbn [app]. do 3 f_equal.
      unfold maxibatch_lines, maxibatch_translation.
      by rewrite Hread, Hlen.
    + by apply Forall_app.
  - destruct Hbs as [?|Hbs]; [by left|right].
    apply Forall_forall. intros [i beam] Hin. simpl.
    apply elem_of_zip_r in Hin. cbn [snd] in Hin.
    assert (Hall : Forall (λ beam : Beam, length beam = beam_size)
                     ((λ i, (minibatches ≫= λ x, (search x).1)
                              !!! slot_of idxs i) <$> seq 0 (length idxs))).
    { eapply fancy_index_Forall; [|by apply fancy_index_argsort].
      apply Forall_bind, Forall_forall. intros x _.
      by destruct (Hc x) as (_ & ? & _). }
    eapply Forall_forall in Hall; [|done].
    intros ->. simpl in Hall. lia.
Qed.

(** A malformed maxibatch: the error is logged and the process exits
    with status 1; no search is run and nothing is written. *)
Lemma translate_maxibatch_data_error maxibatch n w msg :
  read_all_lines config0 maxibatch minibatch_size = inl (DataError msg) →
  run_maxibatch maxibatch num_to_target n w =
    (Raise (SystemExit 1),
     mkWorld (model_set w)
       (trace w ++ [EnterTranslateMaxibatch maxibatch n; LogError msg])).
Proof.
  intros Hread. unfold translate_maxibatch.
  rewrite bind_run. unfold emit at 1. cbn [fst snd]. rewrite Hread.
  rewrite bind_run. unfold emit, raise. cbn [model_set trace].
  by rewrite <-app_assoc.
Qed.
End translate_maxibatch_runs.

(** ** Whatever happens, a maxibatch only adds its own events *)

Section translate_maxibatch_appends.
Context `{Collaborators}.
Variables (session : Session) (config0 : Config).
Variables (beam_size : nat) (nbest : bool) (minibatch_size : nat).
Variables (alpha : Qc) (ra : bool) (num_to_target : Dict).
Implicit Types (w : world).

Lemma appends_beam_search x x_mask :
  appends (maxibatch_event alpha)
    (beam_search session x x_mask beam_size (Some alpha) (Some ra)).
Proof.
  intros w. rewrite beam_search_run.
  destruct (_cached_beam_search_graph (model_set w)) as [g|];
    [destruct (decide (graph_beam_size g = beam_size))|];
    cbn [snd trace default]; rewrite <-?app_assoc;
    eexists; (split; [done|]); by repeat constructor.
Qed.

Lemma appends_translate_minibatches minibatches n beams alignments :
  appends (maxibatch_event alpha)
    (translate_minibatches session config0 beam_size alpha ra
       minibatches n beams alignments).
Proof.
  revert beams alignments.
  induction minibatches as [|x rest IH]; intros beams alignments;
    cbn [translate_minibatches].
  - apply appends_ret.
  - destruct (prepare_data x _ _) as [x' x_mask].
    apply appends_bind; [apply appends_beam_search|].
    intros [sample scores].
    apply appends_bind; [by apply appends_emit|]. intros _.
    apply appends_bind; [by apply appends_emit|]. intros _. apply IH.
Qed.

Lemma appends_print_alignments alignments n :
  appends (maxibatch_event alpha) (print_alignments alignments n).
Proof.
  apply appends_for_each. intros i. apply appends_for_each. intros j.
  apply appends_bind; [by apply appends_emit|]. intros _.
  destruct (alignments !! i ≫= _);
    [by apply appends_emit|apply appends_raise].
Qed.

Lemma appends_write_beam n i beam :
  appends (maxibatch_event alpha) (write_beam nbest num_to_target n i beam).
Proof.
  unfold write_beam. destruct nbest.
  - apply appends_for_each. intros h. by apply appends_emit.
  - destruct beam; [apply appends_raise|by apply appends_emit].
Qed.

Lemma translate_maxibatch_appends maxibatch n w :
  ∃ evs,
    trace (translate_maxibatch session config0 beam_size nbest
             minibatch_size alpha ra maxibatch num_to_target n w).2
    = trace w ++ EnterTranslateMaxibatch maxibatch n :: evs
    ∧ Forall (maxibatch_event alpha) evs.
Proof.
  unfold translate_maxibatch. rewrite bind_run. unfold emit at 1.
  cbn [fst snd].
  match goal with
  | |- ∃ evs, trace (?m ?w1).2 = _ ∧ _ =>
      assert (Hm : appends (maxibatch_event alpha) m)
  end.
  { destruct (read_all_lines _ _ _) as [[]|[minibatches idxs]];
      try apply appends_raise.
    - apply appends_bind; [by apply appends_emit|]. intros _.
      apply appends_raise.
    - apply appends_bind; [apply appends_translate_minibatches|].
      intros [beams alignments]. apply appends_bind.
      + destruct ra; [|apply appends_ret].
        apply appends_bind; [apply appends_get_self|]. intros self.
        apply appends_print_alignments.
      + intros _. destruct (fancy_index _ _); [|apply appends_raise].
        apply appends_for_each. intros [i beam]. apply appends_write_beam. }
  edestruct Hm as (evs & -> & Hevs). cbn [trace].
  exists evs. by rewrite <-app_assoc.
Qed.
End translate_maxibatch_appends.

(** ** The reading loop *)

Section read_loop_facts.
Context `{Collaborators}.
Variables (session : Session) (config0 : Config) (models : list Model).
Variables (beam_size : nat) (nbest : bool).
Variables (minibatch_size maxibatch_size : nat).
Variables (alpha : Qc) (ra : bool) (num_to_target : Dict).
Implicit Types (w : world) (lines buf : list string).

Local Abbreviation cap := (maxibatch_size * minibatch_size).
Local Abbreviation loop :=
  (read_loop session config0 beam_size nbest minibatch_size maxibatch_size
     alpha ra).
Local Abbreviation run :=
  (run_maxibatches session config0 beam_size nbest minibatch_size alpha ra).
Local Abbreviation run_maxibatch :=
  (translate_maxibatch session config0 beam_size nbest minibatch_size
     alpha ra).
Local Abbreviation contract :=
  (search_contract session config0 models beam_size alpha ra).
Local Abbreviation lines_of :=
  (maxibatch_lines session config0 models beam_size minibatch_size alpha ra
     nbest num_to_target).

(** The loop calls [translate_maxibatch] on the maxibatches of its input,
    in order (whatever these calls do). *)
Lemma read_loop_maxibatches lines n buf w :
  Forall (λ line, line ≠ "") lines →
  cap = 0 ∨ length buf < cap →
  loop lines num_to_target n buf w =
  run (maxibatches cap (buf ++ lines)) num_to_target n w.
Proof.
  intros Hne. revert n buf w.
  induction Hne as [|line lines Hline _ IH]; intros n buf w Hbuf.
  - rewrite app_nil_r. cbn [read_loop]. unfold at_end_of_input.
    destruct (decide (0 < length buf)) as [Hpos|Hnil].
    + rewrite maxibatches_short by (done || lia). done.
    + destruct buf; simpl in Hnil; [|lia]. by rewrite maxibatches_nil.
  - cbn [read_loop]. destruct (decide (line = "")); [done|].
    rewrite (cons_middle line buf lines), app_assoc.
    destruct (decide (length (buf ++ [line]) = cap)) as [Hfull|Hless].
    + rewrite maxibatches_app_exact;
        [|rewrite length_app in Hfull; simpl in Hfull; lia|done].
      cbn [run_maxibatches]. rewrite !bind_run.
      destruct (run_maxibatch _ _ _ _) as [[[]|e] w']; [|done].
      rewrite (IH _ []); [done|].
      right. rewrite <-Hfull, length_app. simpl. lia.
    + apply IH. rewrite length_app in *. simpl in *. lia.
Qed.

(** A buffer that reaches the capacity is translated at once, whatever
    follows in the input; the loop goes on with an empty buffer. *)
Lemma read_loop_full_maxibatch chunk rest n buf w :
  Forall (λ line, line ≠ "") chunk →
  0 < length chunk → length buf + length chunk = cap →
  loop (chunk ++ rest) num_to_target n buf w =
  (run_maxibatch (buf ++ chunk) num_to_target n;;
   loop rest num_to_target (n + cap) []) w.
Proof.
  intros Hne. revert buf.
  induction Hne as [|line chunk Hline Hne IH]; intros buf Hpos Hcap;
    [simpl in Hpos; lia|].
  cbn [app read_loop]. destruct (decide (line = "")); [done|].
  destruct (decide (length (buf ++ [line]) = cap)) as [Hfull|Hless].
  - destruct chunk;
      [|exfalso; rewrite length_app in Hfull; simpl in *; lia].
    cbn [app]. by rewrite Hfull.
  - rewrite length_app in Hless. simpl in *.
    rewrite IH, <-app_assoc; [done|destruct chunk; simpl in *; lia|].
    rewrite length_app. simpl. lia.
Qed.

(** Every maxibatch well-formed: the whole input is translated. *)
Lemma run_maxibatches_run chunks n w :
  ready models w → contract →
  nbest = true ∨ 0 < beam_size → 0 < minibatch_size →
  Forall (Forall (λ line, ∃ p, parse_sentence config0 line = inr p))
    chunks →
  ∃ evs w',
    run chunks num_to_target n w = (Return (n + length (concat chunks)), w')
    ∧ ready models w'
    ∧ trace w' = trace w ++ evs
    ∧ written evs = numbered n chunks ≫= (λ '(c, m), lines_of c m)
    ∧ entered evs = numbered n chunks.
Proof.
  intros Hr Hc Hbs Hmb Hwf. revert n w Hr.
  induction Hwf as [|chunk chunks Hchunk _ IH]; intros n w Hr.
  - exists [], w. simpl. by rewrite Nat.add_0_r, app_nil_r.
  - cbn [run_maxibatches numbered]. rewrite bind_run.
    destruct (read_all_lines_wf config0 chunk minibatch_size Hmb Hchunk)
      as (minibatches & idxs & Hread).
    edestruct (translate_maxibatch_run session config0 models beam_size
                 nbest minibatch_size alpha ra num_to_target chunk n w)
      as (evs1 & w1 & -> & Hr1 & Htr1 & Hevs1); [done..|].
    edestruct (IH (n + length chunk) w1) as (evs2 & w2 & -> & Hr2 & Htr2 & Hw2 & He2);
      [done|].
    eexists _, w2. split_and!.
    + by rewrite concat_cons, length_app, Nat.add_assoc.
    + done.
    + rewrite Htr2, Htr1, <-app_assoc. done.
    + rewrite bind_cons. change (?a :: ?l ++ ?k) with ((a :: l) ++ k).
      rewrite !written_app, Hw2, written_Write.
      change (written (EnterTranslateMaxibatch chunk n :: evs1))
        with (written evs1).
      by rewrite (search_event_written alpha).
    + change (?a :: ?l ++ ?k) with ((a :: l) ++ k).
      rewrite !entered_app, He2, entered_Write.
      change (entered (EnterTranslateMaxibatch chunk n :: evs1))
        with ((chunk, n) :: entered evs1).
      rewrite (maxibatch_event_entered alpha); [done|].
      eapply Forall_impl; [done|]. apply search_event_maxibatch_event.
Qed.

(** In every case, the calls of [translate_maxibatch] are a prefix of the
    maxibatches, each with the number of lines before it, and every search
    runs with the given [normalization_alpha]. *)
Lemma run_maxibatches_appends chunks n w :
  ∃ evs k,
    trace (run chunks num_to_target n w).2 = trace w ++ evs
    ∧ entered evs = take k (numbered n chunks)
    ∧ Forall (λ a, a = alpha) (search_alphas evs)
    ∧ (∀ m, (run chunks num_to_target n w).1 = Return m →
         m = n + length (concat chunks) ∧ entered evs = numbered n chunks).
Proof.
  revert n w. induction chunks as [|chunk chunks IH]; intros n w.
  - exists [], 0. simpl. rewrite app_nil_r, Nat.add_0_r.
    split_and!; try done. by intros m [= <-].
  - cbn [run_maxibatches numbered]. rewrite bind_run.
    destruct (translate_maxibatch_appends session config0 beam_size nbest
                minibatch_size alpha ra num_to_target chunk n w)
      as (evs1 & Htr1 & Hevs1).
    destruct (run_maxibatch chunk num_to_target n w) as [[[]|e] w1];
      cbn [fst snd] in *.
    + destruct (IH (n + length chunk) w1) as (evs2 & k & Htr2 & He2 & Ha2 & Hret).
      exists ((EnterTranslateMaxibatch chunk n :: evs1) ++ evs2), (S k).
      rewrite Htr2, Htr1, <-app_assoc. split_and!; try done.
      * rewrite entered_app, He2.
        change (entered (EnterTranslateMaxibatch chunk n :: evs1))
          with ((chunk, n) :: entered evs1).
        by rewrite (maxibatch_event_entered alpha).
      * rewrite search_alphas_app. apply Forall_app. split; [|done].
        change (search_alphas (EnterTranslateMaxibatch chunk n :: evs1))
          with (search_alphas evs1).
        by apply maxibatch_event_alphas.
      * intros m Hm. destruct (Hret m Hm) as [-> He].
        rewrite concat_cons, length_app, Nat.add_assoc. split; [done|].
        rewrite entered_app, He.
        change (entered (EnterTranslateMaxibatch chunk n :: evs1))
          with ((chunk, n) :: entered evs1).
        by rewrite (maxibatch_event_entered alpha).
    + exists (EnterTranslateMaxibatch chunk n :: evs1), 1.
      split_and!; try done.
      * change (entered (EnterTranslateMaxibatch chunk n :: evs1))
          with ((chunk, n) :: entered evs1).
        rewrite (maxibatch_event_entered alpha) by done. simpl.
        by rewrite take_0.
      * change (search_alphas (EnterTranslateMaxibatch chunk n :: evs1))
          with (search_alphas evs1).
        by apply maxibatch_event_alphas.
Qed.
End read_loop_facts.

(** ** From positions within maxibatches to positions in the input *)

Lemma div_mod_offset cap k i :
  i < cap → (k * cap + i) / cap = k ∧ (k * cap + i) `mod` cap = i.
Proof.
  intros Hi. rewrite (Nat.add_comm (k * cap) i).
  rewrite Nat.div_add, Nat.Div0.mod_add by lia.
  rewrite Nat.div_small, Nat.mod_small by done. done.
Qed.

Section maxibatch_positions.
Context {A B : Type}.
Implicit Types (l c : list A) (G : list A → nat → nat → list B).

Lemma slices_lookup cap l k :
  0 < cap → k * cap < length l →
  slices cap l !! k = Some (take cap (drop (k * cap) l)).
Proof.
  intros Hcap. revert l. induction k as [|k IH]; intros l Hk.
  - rewrite slices_cons_take by (done || by intros ->; simpl in *; lia).
    done.
  - rewrite slices_cons_take by (done || by intros ->; simpl in *; lia).
    simpl. rewrite IH, drop_drop; [done|].
    rewrite length_drop. simpl in Hk. lia.
Qed.

Lemma slices_lookup_Some cap l k c :
  0 < cap → slices cap l !! k = Some c →
  k * cap < length l ∧ c = take cap (drop (k * cap) l).
Proof.
  intros Hcap. revert l. induction k as [|k IH]; intros l Hc.
  - destruct (decide (l = [])) as [->|Hl]; [done|].
    rewrite slices_cons_take in Hc by done. injection Hc as <-.
    split; [destruct l; simpl in *; [done|lia]|done].
  - destruct (decide (l = [])) as [->|Hl]; [done|].
    rewrite slices_cons_take in Hc by done. simpl in Hc.
    apply IH in Hc as [Hk ->]. rewrite length_drop in Hk.
    rewrite drop_drop. split; [simpl; lia|done].
Qed.

(** Line [g] of the input is line [g mod cap] of maxibatch [g / cap]. *)
Lemma maxibatches_lookup cap l g :
  g < length l →
  ∃ c, maxibatches cap l !! (g / cap) = Some c ∧
       c !! (g `mod` cap) = l !! g.
Proof.
  intros Hg. unfold maxibatches. destruct (decide (cap = 0)) as [->|Hcap].
  - exists l. destruct l; simpl in *; [lia|done].
  - pose proof (Nat.div_mod_eq g cap) as Hdm.
    pose proof (Nat.mod_upper_bound g cap Hcap) as Hm.
    eexists. split.
    + apply slices_lookup; [lia|]. nia.
    + rewrite lookup_take_lt, lookup_drop by done. f_equal. lia.
Qed.

Lemma numbered_slices_bind cap G (out : nat → list B) l off :
  0 < cap →
  (∀ k c i, slices cap l !! k = Some c → i < length c →
            G c i (off + k * cap + i) = out (off + k * cap + i)) →
  numbered off (slices cap l) ≫=
    (λ '(c, m), seq 0 (length c) ≫= λ i, G c i (m + i))
  = seq off (length l) ≫= out.
Proof.
  intros Hcap. remember (length l) as len eqn:Hlen. revert l off Hlen.
  induction (lt_wf len) as [len _ IH]; intros l off -> HG.
  destruct (decide (l = [])) as [->|Hl]; [done|].
  rewrite slices_cons_take in * by done. cbn [numbered].
  rewrite bind_cons.
  replace (length l) with (length (take cap l) + length (drop cap l))
    by (by rewrite <-length_app, take_drop).
  rewrite seq_app, bind_app.
  f_equal.
  - assert (seq off (length (take cap l))
            = Nat.add off <$> seq 0 (length (take cap l))) as ->
      by (by rewrite fmap_add_seq, Nat.add_0_r).
    rewrite list_fmap_bind.
    apply Forall_bind_ext, Forall_forall. intros i Hi%elem_of_seq. simpl.
    specialize (HG 0 (take cap l) i). simpl in HG.
    rewrite !Nat.add_0_r in HG. apply HG; [done|lia].
  - apply (IH (length (drop cap l))); [|done|].
    + rewrite length_drop. destruct l; simpl in *; [done|lia].
    + intros k c i Hc Hi.
      assert (length (take cap l) = cap) as ->.
      { apply slices_lookup_Some in Hc as [Hk _]; [|done].
        rewrite length_drop in Hk. rewrite length_take. lia. }
      specialize (HG (S k) c i Hc Hi). simpl in HG.
      by replace (off + cap + k * cap + i)
        with (off + (cap + k * cap) + i) by lia.
Qed.

Lemma numbered_maxibatches_bind cap G l :
  numbered 0 (maxibatches cap l) ≫=
    (λ '(c, m), seq 0 (length c) ≫= λ i, G c i (m + i))
  = seq 0 (length l) ≫= λ g,
      G (maxibatches cap l !!! (g / cap)) (g `mod` cap) g.
Proof.
  unfold maxibatches. destruct (decide (cap = 0)) as [->|Hcap].
  - destruct l as [|a l]; [done|]. cbn [numbered]. rewrite bind_singleton.
    done.
  - apply numbered_slices_bind; [lia|]. intros k c i Hc Hi. simpl.
    destruct (slices_lookup_Some cap l k c) as [Hk ->]; [lia|done|].
    rewrite length_take in Hi.
    destruct (div_mod_offset cap k i) as [-> ->]; [lia|].
    by rewrite (list_lookup_total_correct _ _ _ Hc).
Qed.
End maxibatch_positions.

(** ** The beam-search engine *)

Lemma cost_le_total a b : cost_le a b = false → cost_le b a = true.
Proof.
  destruct a as [x|], b as [y|]; simpl; try done.
  rewrite bool_decide_eq_false, bool_decide_eq_true. intros Hxy.
  apply Qclt_le_weak. by apply Qclt_nge.
Qed.


Lemma Qcdiv_1_r (x : Qc) : (x / 1 = x)%Qc.
Proof.
  unfold Qcdiv. replace (/ 1)%Qc with 1%Qc by (by apply Qc_is_canon). ring.
Qed.

(** Sorting two lists that are related element by element, with orders
    that agree on related elements, gives related lists. *)
Section sort_by_related.
Context {A B : Type} (R : A → B → Prop).
Context (leA : A → A → bool) (leB : B → B → bool).
Hypothesis le_agree :
  ∀ a1 b1 a2 b2, R a1 b1 → R a2 b2 → leA a1 a2 = leB b1 b2.


End sort_by_related.

Section engine_facts.
Context {Src Hidden : Type}.
Variables (vocab_size eos : nat) (float_pow : nat → Qc → Qc).
Implicit Types (scorers : list (Scorer Src Hidden)).
Implicit Types (beam : list (hypothesis Hidden)) (h : hypothesis Hidden).

Lemma length_expand scorers h :
  length (expand vocab_size eos scorers h) = vocab_size.
Proof. unfold expand. by rewrite length_fmap, length_seq. Qed.

Lemma length_candidates scorers beam :
  0 < vocab_size →
  length beam ≤ length (candidates vocab_size eos scorers beam).
Proof.
  intros HV. unfold candidates.
  induction beam as [|h beam IH]; [done|].
  rewrite bind_cons, length_app. simpl.
  destruct (finished h); [simpl; lia|]. rewrite length_expand. lia.
Qed.

Lemma length_step_le scorers beam_size beam :
  length (step vocab_size eos scorers beam_size beam) ≤ beam_size.
Proof. unfold step. rewrite length_take. lia. Qed.

Lemma length_step scorers beam_size beam :
  0 < vocab_size → length beam = beam_size →
  length (step vocab_size eos scorers beam_size beam) = beam_size.
Proof.
  intros HV Hb. unfold step. rewrite length_take, length_sort_by.
  pose proof (length_candidates scorers beam HV). lia.
Qed.

Lemma length_initial_beam scorers beam_size (src : Src) :
  length (initial_beam scorers beam_size src) = beam_size.
Proof. unfold initial_beam. by rewrite length_fmap, length_seq. Qed.

Lemma length_steps_le scorers beam_size (src : Src) n :
  length (Nat.iter n (step vocab_size eos scorers beam_size)
            (initial_beam scorers beam_size src)) ≤ beam_size.
Proof.
  destruct n; simpl; [by rewrite length_initial_beam|].
  apply length_step_le.
Qed.

Lemma length_search scorers beam_size maxlen beam :
  0 < vocab_size → length beam = beam_size →
  length (search vocab_size eos scorers beam_size maxlen beam) = beam_size.
Proof.
  intros HV. revert beam. induction maxlen as [|n IH]; intros beam Hb;
    simpl; [done|].
  destruct (forallb finished beam); [done|]. by apply IH, length_step.
Qed.

Lemma length_final_beam alpha beam :
  length (final_beam float_pow alpha beam) = length beam.
Proof. unfold final_beam. by rewrite length_sort_by, length_fmap. Qed.

Lemma final_beam_Sorted alpha beam :
  Sorted (λ a b : Hypo, cost_le a.2 b.2 = true)
    (final_beam float_pow alpha beam).
Proof.
  apply (sort_by_Sorted reported_le). intros a b. apply cost_le_total.
Qed.

Lemma length_search_sentence scorers beam_size alpha maxlen (src : Src) :
  0 < vocab_size →
  length (search_sentence vocab_size eos float_pow scorers beam_size alpha
            maxlen src) = beam_size.
Proof.
  intros HV. unfold search_sentence.
  rewrite length_final_beam, length_search; [done..|].
  apply length_initial_beam.
Qed.

(** The engine meets the documented result of a search. *)
Lemma engine_beam_search_shape scorers (batch : list Src) beam_size alpha
    maxlen :
  0 < vocab_size →
  length (engine_beam_search vocab_size eos float_pow scorers batch
            beam_size alpha maxlen) = length batch ∧
  Forall (λ beam : Beam, length beam = beam_size)
    (engine_beam_search vocab_size eos float_pow scorers batch beam_size
       alpha maxlen).
Proof.
  intros HV. unfold engine_beam_search. split; [by rewrite length_fmap|].
  apply Forall_fmap, Forall_forall. intros src _. simpl.
  by apply length_search_sentence.
Qed.
End engine_facts.

(** *** Two identical scorers *)

Section engine_doubling.
Context {Src Hidden : Type}.
Variables (vocab_size eos : nat) (float_pow : nat → Qc → Qc).
Variable (s : Scorer Src Hidden).
Implicit Types (beam : list (hypothesis Hidden)) (h : hypothesis Hidden).









End engine_doubling.

(** ** translate_file *)

Lemma maxibatches_full {A} cap (l : list A) k c :
  maxibatches cap l !! k = Some c → S k < length (maxibatches cap l) →
  length c = cap.
Proof.
  unfold maxibatches. destruct (decide (cap = 0)) as [->|Hcap].
  - destruct l; simpl; lia.
  - intros Hc Hk. apply lookup_lt_is_Some_2 in Hk as [c' Hc'].
    apply slices_lookup_Some in Hc as [_ ->]; [|lia].
    apply slices_lookup_Some in Hc' as [Hk' _]; [|lia].
    rewrite length_take, length_drop. simpl in Hk'. lia.
Qed.

Section translate_file_facts.
Context `{Collaborators}.
Variables (session : Session) (models : list Model).
Variables (config0 : Config) (configs : list Config).
Variables (beam_size minibatch_size maxibatch_size : nat).
Variables (alpha : Qc) (ra : bool).
Implicit Types (nbest : bool) (content : string) (w : world).

Local Abbreviation cap := (maxibatch_size * minibatch_size).
Local Abbreviation ntt := (load_dictionaries config0).2.
Local Abbreviation run_file nbest content :=
  (translate_file content session models (config0 :: configs)
     (Some beam_size) (Some nbest) (Some minibatch_size)
     (Some maxibatch_size) (Some alpha) (Some ra)).
Local Abbreviation well_formed :=
  (Forall (λ line, ∃ p, parse_sentence config0 line = inr p)).
Local Abbreviation contract :=
  (search_contract session config0 models beam_size alpha ra).
Local Abbreviation translation :=
  (translation_of session config0 models beam_size minibatch_size
     maxibatch_size alpha ra).
Local Abbreviation lines_of nbest :=
  (maxibatch_lines session config0 models beam_size minibatch_size alpha ra
     nbest ntt).

(** [translate_file] logs the length cap, then runs the maxibatches of
    its input. *)
Lemma translate_file_unfold nbest content :
  run_file nbest content =
  run_maxibatches session config0 beam_size nbest minibatch_size alpha ra
    (maxibatches cap (readlines content)) ntt 0
    (mkWorld (__init__ models (config0 :: configs))
       [LogCap (translation_maxlen config0)]).
Proof.
  unfold translate_file. cbn [default].
  destruct (load_dictionaries config0) as [[[d1 d2] d3] d4]. cbn [snd].
  rewrite bind_run. unfold emit at 1. cbn [fst snd model_set trace app].
  rewrite read_loop_maxibatches; [done|apply readlines_nonempty|].
  simpl. lia.
Qed.

(** A well-formed input: every line is translated, and the lines written
    are those of the beams of the input lines, in the order of the input. *)
Lemma translate_file_run nbest content :
  0 < minibatch_size → nbest = true ∨ 0 < beam_size →
  well_formed (readlines content) → contract →
  ∃ evs ms,
    run_file nbest content =
      (Return (length (readlines content)),
       mkWorld ms (LogCap (translation_maxlen config0) :: evs))
    ∧ written evs =
        seq 0 (length (readlines content)) ≫= (λ g,
          beam_lines nbest ntt 0 g (translation (readlines content) g))
    ∧ entered evs = numbered 0 (maxibatches cap (readlines content)).
Proof.
  intros Hmb Hbs Hwf Hc. rewrite translate_file_unfold.
  destruct (maxibatches_spec cap (readlines content)) as [Hcat Hsz].
  edestruct (run_maxibatches_run session config0 models beam_size nbest
               minibatch_size alpha ra ntt
               (maxibatches cap (readlines content)) 0)
    as (evs & [ms tr] & -> & _ & Htr & Hw & He);
    [apply ready_init|done..| |].
  { apply Forall_concat. by rewrite Hcat. }
  cbn [trace] in Htr. subst tr. exists evs, ms.
  rewrite Hcat. split_and!; [done| |done].
  rewrite Hw. unfold translation_of.
  rewrite <-(numbered_maxibatches_bind cap
    (λ c i g, beam_lines nbest ntt 0 g
                (maxibatch_translation session config0 models beam_size
                   minibatch_size alpha ra c i))).
  done.
Qed.

(** The slot that [translation_of] reads is the slot of the line. *)
Lemma sentence_of_parse lines i :
  0 < minibatch_size → well_formed lines → i < length lines →
  ∃ p, parse_sentence config0 (lines !!! i) = inr p ∧
       sentence_of config0 minibatch_size maxibatch_size lines i = Some p.
Proof.
  intros Hmb Hwf Hi.
  destruct (maxibatches_lookup cap lines i Hi) as (c & Hc & Hci).
  destruct (maxibatches_spec cap lines) as [Hcat _].
  assert (Hwfc : well_formed c).
  { rewrite <-Hcat in Hwf. apply Forall_concat in Hwf.
    eapply Forall_forall in Hwf; [done|]. by eapply list_elem_of_lookup_2. }
  destruct (read_all_lines_wf config0 c minibatch_size Hmb Hwfc)
    as (minibatches & idxs & Hread).
  destruct (read_all_lines_inr _ _ _ _ _ Hread)
    as (parsed & Hp & _ & Hperm & Hlen & Hcat' & _).
  rewrite (list_lookup_lookup_total_lt lines i Hi) in Hci.
  assert (Hj : i `mod` cap < length idxs).
  { rewrite Hlen. by eapply lookup_lt_Some. }
  assert (Hj' : i `mod` cap < length parsed).
  { rewrite <-(Forall2_length _ _ _ Hp). by eapply lookup_lt_Some. }
  exists (parsed !!! (i `mod` cap)). split.
  - eapply (Forall2_lookup_lr _ _ _ _ _ _ Hp); [done|].
    by apply list_lookup_lookup_total_lt.
  - unfold sentence_of, maxibatch_sentence.
    rewrite (list_lookup_total_correct _ _ _ Hc), Hread, Hcat'.
    rewrite slot_of_argsort, list_lookup_fmap by done.
    pose proof (argsort_inverse_lookup idxs _ Hperm Hj) as Hinv.
    assert (Hk : argsort idxs !!! (i `mod` cap) < length idxs).
    { by eapply lookup_lt_Some. }
    rewrite (list_lookup_lookup_total_lt idxs _ Hk) in Hinv.
    injection Hinv as Hinv.
    rewrite (list_lookup_lookup_total_lt idxs _ Hk). simpl.
    by rewrite Hinv.
Qed.

Lemma run_maxibatches_app nbest chunks1 chunks2 n w :
  run_maxibatches session config0 beam_size nbest minibatch_size alpha ra
    (chunks1 ++ chunks2) ntt n w =
  (run_maxibatches session config0 beam_size nbest minibatch_size alpha ra
     chunks1 ntt n ≫= λ m,
   run_maxibatches session config0 beam_size nbest minibatch_size alpha ra
     chunks2 ntt m) w.
Proof.
  revert n w. induction chunks1 as [|c chunks1 IH]; intros n w; [done|].
  cbn [app run_maxibatches]. rewrite !bind_run.
  destruct (translate_maxibatch _ _ _ _ _ _ _ _ _ _ _) as [[[]|e] w1];
    [|done].
  by rewrite IH, bind_run.
Qed.
End translate_file_facts.


Section translation_of_facts.
Context `{Collaborators}.
Variables (session : Session) (models : list Model) (config0 : Config).
Variables (beam_size minibatch_size maxibatch_size : nat).
Variables (alpha : Qc) (ra : bool).

(** The beam of an input line has [beam_size] hypotheses. *)
Lemma length_translation_of lines i :
  0 < minibatch_size →
  Forall (λ line, ∃ p, parse_sentence config0 line = inr p) lines →
  search_contract session config0 models beam_size alpha ra →
  i < length lines →
  length (translation_of session config0 models beam_size minibatch_size
            maxibatch_size alpha ra lines i) = beam_size.
Proof.
  intros Hmb Hwf Hc Hi.
  destruct (maxibatches_lookup (maxibatch_size * minibatch_size) lines i Hi)
    as (c & Hchunk & Hci).
  destruct (maxibatches_spec (maxibatch_size * minibatch_size) lines)
    as [Hcat _].
  assert (Hwfc : Forall (λ line, ∃ p, parse_sentence config0 line = inr p) c).
  { rewrite <-Hcat in Hwf. apply Forall_concat in Hwf.
    eapply Forall_forall in Hwf; [done|]. by eapply list_elem_of_lookup_2. }
  destruct (read_all_lines_wf config0 c minibatch_size Hmb Hwfc)
    as (minibatches & idxs & Hread).
  destruct (read_all_lines_inr _ _ _ _ _ Hread)
    as (parsed & Hp & _ & Hperm & Hlen & Hcat' & _).
  rewrite (list_lookup_lookup_total_lt lines i Hi) in Hci.
  assert (Hj : i `mod` (maxibatch_size * minibatch_size) < length idxs).
  { rewrite Hlen. by eapply lookup_lt_Some. }
  unfold translation_of, maxibatch_translation.
  rewrite (list_lookup_total_correct _ _ _ Hchunk), Hread.
  rewrite slot_of_argsort by done.
  assert (Hall : Forall (λ beam : Beam, length beam = beam_size)
            (minibatches ≫= λ x,
               (search_minibatch session config0 models beam_size alpha ra
                  x).1)).
  { apply Forall_bind, Forall_forall. intros x _.
    by destruct (Hc x) as (_ & ? & _). }
  eapply Forall_lookup_total_1 in Hall; [done|].
  rewrite (contract_length session config0 models beam_size alpha ra) by done.
  rewrite Hcat', length_fmap.
  apply argsort_lt, list_elem_of_lookup_total_2. by rewrite length_argsort.
Qed.
End translation_of_facts.

(** * The claims about translate_file *)

Section translate_file_claims.
Context `{Collaborators}.
Variables (session : Session) (models : list Model).
Variables (config0 : Config) (configs : list Config).
Variables (beam_size minibatch_size maxibatch_size : nat).
Variables (alpha : Qc) (ra : bool).
Implicit Types (nbest : bool) (content : string) (w : world).

Local Abbreviation cap := (maxibatch_size * minibatch_size).
Local Abbreviation ntt := (load_dictionaries config0).2.
Local Abbreviation run_file nbest content :=
  (translate_file content session models (config0 :: configs)
     (Some beam_size) (Some nbest) (Some minibatch_size)
     (Some maxibatch_size) (Some alpha) (Some ra)).
Local Abbreviation well_formed :=
  (Forall (λ line, ∃ p, parse_sentence config0 line = inr p)).
Local Abbreviation contract :=
  (search_contract session config0 models beam_size alpha ra).
Local Abbreviation translation :=
  (translation_of session config0 models beam_size minibatch_size
     maxibatch_size alpha ra).
Local Abbreviation lines_of nbest :=
  (maxibatch_lines session config0 models beam_size minibatch_size alpha ra
     nbest ntt).


(** C6: on a well-formed input, the calls of [translate_maxibatch] are the
    maxibatches of the input, in order, each with the number of lines
    before it: consecutive runs of [maxibatch_size * minibatch_size]
    lines and, when lines are left at end of input, a last shorter one;
    no maxibatch is empty, and together they are the input, every line
    once. A buffer that reaches the capacity is translated and emptied
    whatever follows in the input. *)
Theorem translate_file_maxibatches nbest content :
  0 < minibatch_size → nbest = true ∨ 0 < beam_size →
  well_formed (readlines content) → contract →
  let lines := readlines content in
  let chunks := maxibatches cap lines in
  ∃ w,
    run_file nbest content = (Return (length lines), w)
    ∧ entered (trace w) = numbered 0 chunks
    ∧ concat chunks = lines
    ∧ Forall (λ c, 0 < length c ∧ (0 < cap → length c ≤ cap)) chunks
    ∧ (∀ k c, chunks !! k = Some c → S k < length chunks →
         length c = cap)
    ∧ (∀ chunk rest n w0,
         Forall (λ line, line ≠ "") chunk → 0 < cap → length chunk = cap →
         read_loop session config0 beam_size nbest minibatch_size
           maxibatch_size alpha ra (chunk ++ rest) ntt n [] w0 =
         (translate_maxibatch session config0 beam_size nbest
            minibatch_size alpha ra chunk ntt n;;
          read_loop session config0 beam_size nbest minibatch_size
            maxibatch_size alpha ra rest ntt (n + cap) []) w0).
Proof.
  intros Hmb Hbs Hwf Hc lines chunks.
  destruct (translate_file_run session models config0 configs beam_size
              minibatch_size maxibatch_size alpha ra nbest content)
    as (evs & ms & Hrun & _ & He); [done..|].
  destruct (maxibatches_spec cap lines) as [Hcat Hsz].
  exists (mkWorld ms (LogCap (translation_maxlen config0) :: evs)).
  split_and!; [done..| |].
  - intros k c. apply maxibatches_full.
  - intros chunk rest n w0 Hne Hcap Hlen.
    by apply (read_loop_full_maxibatch session config0 beam_size nbest
                minibatch_size maxibatch_size alpha ra ntt chunk rest n []);
      [|lia|].
Qed.

(** C7: when [read_all_lines] raises the data-format error on a maxibatch,
    [translate_maxibatch] logs the message and exits with status 1,
    without running a search, writing a line or reading again; in
    [translate_file], the output then holds the lines of the maxibatches
    before that one, and nothing of it or of what follows. *)
Theorem data_format_error_aborts nbest content good bad later msg :
  maxibatches cap (readlines content) = good ++ bad :: later →
  0 < minibatch_size → nbest = true ∨ 0 < beam_size →
  Forall well_formed good → contract →
  read_all_lines config0 bad minibatch_size = inl (DataError msg) →
  (∀ n w0,
     translate_maxibatch session config0 beam_size nbest minibatch_size
       alpha ra bad ntt n w0 =
     (Raise (SystemExit 1),
      mkWorld (model_set w0)
        (trace w0 ++ [EnterTranslateMaxibatch bad n; LogError msg])))
  ∧ ∃ w evs,
      run_file nbest content = (Raise (SystemExit 1), w)
      ∧ trace w = LogCap (translation_maxlen config0) :: evs
                    ++ [EnterTranslateMaxibatch bad (length (concat good));
                        LogError msg]
      ∧ written (trace w) = numbered 0 good ≫= (λ '(c, m), lines_of nbest c m)
      ∧ entered (trace w) = numbered 0 good ++ [(bad, length (concat good))].
Proof.
  intros Hchunks Hmb Hbs Hgood Hc Hread. split.
  { intros n w0. by apply translate_maxibatch_data_error. }
  rewrite translate_file_unfold, Hchunks, run_maxibatches_app, bind_run.
  edestruct (run_maxibatches_run session config0 models beam_size nbest
               minibatch_size alpha ra ntt good 0)
    as (evs & [ms tr] & -> & _ & Htr & Hw & He);
    [apply ready_init|done..|].
  cbn [trace] in Htr. subst tr. cbn [run_maxibatches].
  rewrite bind_run, (translate_maxibatch_data_error _ _ _ _ _ _ _ _ _ _ _ msg)
    by done.
  exists (mkWorld ms
            (LogCap (translation_maxlen config0) :: evs
               ++ [EnterTranslateMaxibatch bad (length (concat good));
                   LogError msg])), evs.
  cbn [trace model_set app]. split_and!; [done|done|..].
  - change (written (LogCap ?n :: ?l)) with (written l).
    by rewrite written_app, Hw, app_nil_r.
  - change (entered (LogCap ?n :: ?l)) with (entered l).
    by rewrite entered_app, He.
Qed.

(** C8: in n-best mode, on a well-formed input, the output is, for every
    input line [g] in order, one line "[g] ||| text ||| cost" for every
    hypothesis of the beam that the search returned for line [g], in the
    order of that beam; the beam has [beam_size] hypotheses. The index
    written by [translate_maxibatch] is the number of lines of the
    maxibatches before it plus the position of the line in it, the beams
    being in the order of the input when they are numbered. *)
Theorem translate_file_nbest_lines content :
  0 < minibatch_size → well_formed (readlines content) → contract →
  let lines := readlines content in
  ∃ w,
    run_file true content = (Return (length lines), w)
    ∧ written (trace w) =
        seq 0 (length lines) ≫= (λ g,
          (λ h : Hypo, pretty g +:+ " ||| " +:+ seq2words h.1 ntt +:+ " ||| "
                         +:+ str_cost h.2 +:+ newline)
            <$> translation lines g)
    ∧ (∀ g, g < length lines →
         length (translation lines g) = beam_size ∧
         ∃ p, parse_sentence config0 (lines !!! g) = inr p ∧
              sentence_of config0 minibatch_size maxibatch_size lines g
              = Some p)
    ∧ entered (trace w) = numbered 0 (maxibatches cap lines)
    ∧ (∀ maxibatch n,
         lines_of true maxibatch n =
         seq 0 (length maxibatch) ≫= λ i,
           nbest_line ntt (n + i) <$>
             maxibatch_translation session config0 models beam_size
               minibatch_size alpha ra maxibatch i).
Proof.
  intros Hmb Hwf Hc lines.
  destruct (translate_file_run session models config0 configs beam_size
              minibatch_size maxibatch_size alpha ra true content)
    as (evs & ms & Hrun & Hw & He); [done|by left|done..|].
  exists (mkWorld ms (LogCap (translation_maxlen config0) :: evs)).
  cbn [trace].
  change (written (LogCap (translation_maxlen config0) :: evs))
    with (written evs).
  change (entered (LogCap (translation_maxlen config0) :: evs))
    with (entered evs).
  split_and!; [done| | |done|done].
  - rewrite Hw. apply Forall_bind_ext, Forall_forall. intros g _.
    unfold beam_lines. apply list_fmap_ext. by intros _ [sent c] _.
  - intros g Hg. split.
    + by apply length_translation_of.
    + by apply sentence_of_parse.
Qed.

End translate_file_claims.

(** * The claims about the search *)

Section engine_claims.
Context {Src Hidden : Type}.
Variables (vocab_size eos : nat) (float_pow : nat → Qc → Qc).
Implicit Types (scorers : list (Scorer Src Hidden)).
Implicit Types (h : hypothesis Hidden).



(** C3: with a vocabulary that has its end-of-sequence token, the beam
    returned for a sentence has exactly [beam_size] (translation, score)
    pairs, in ascending order of (normalized) cost, and so has every beam
    returned for a batch, one per sentence; at every step of the search
    the beam has at most [beam_size] hypotheses. *)
Theorem beam_has_beam_size_sorted_hypotheses scorers beam_size alpha
    maxlen (src : Src) (batch : list Src) :
  eos < vocab_size →
  let beam := search_sentence vocab_size eos float_pow scorers beam_size
                alpha maxlen src in
  length beam = beam_size
  ∧ Sorted (λ a b : Hypo, cost_le a.2 b.2 = true) beam
  ∧ (∀ n, length (Nat.iter n (step vocab_size eos scorers beam_size)
                    (initial_beam scorers beam_size src)) ≤ beam_size)
  ∧ (∀ n, length (search vocab_size eos scorers beam_size n
                    (initial_beam scorers beam_size src)) ≤ beam_size)
  ∧ length (engine_beam_search vocab_size eos float_pow scorers batch
              beam_size alpha maxlen) = length batch
  ∧ Forall (λ b : Beam,
              length b = beam_size ∧
              Sorted (λ a b : Hypo, cost_le a.2 b.2 = true) b)
      (engine_beam_search vocab_size eos float_pow scorers batch beam_size
         alpha maxlen).
Proof.
  intros Heos beam.
  assert (HV : 0 < vocab_size) by lia.
  split_and!.
  - by apply length_search_sentence.
  - apply final_beam_Sorted.
  - apply length_steps_le.
  - intros n. rewrite length_search; [done..|apply length_initial_beam].
  - by apply engine_beam_search_shape.
  - unfold engine_beam_search. apply Forall_fmap, Forall_forall.
    intros src' _. simpl. split; [by apply length_search_sentence|].
    apply final_beam_Sorted.
Qed.
End engine_claims.

Section default_claims.
Context `{Collaborators}.

(** C9: [beam_search] called without [normalization_alpha] runs the
    search with 0; [translate_file] called without it runs with 1, and
    it always passes its own value on: every search of [translate_file]
    runs with the value [translate_file] was given, or 1. With exponent
    0, where [len ** 0 = 1], the reported cost of every hypothesis is its
    raw cost. *)
Theorem normalization_alpha_defaults {Hidden : Type}
    (float_pow : nat → Qc → Qc) :
  (∀ len, float_pow len 0%Qc = 1%Qc) →
  (∀ session x x_mask beam_size ra w,
     beam_search session x x_mask beam_size None ra w =
     beam_search session x x_mask beam_size (Some 0%Qc) ra w)
  ∧ (∀ content session models configs bs nb mb xb ra,
       translate_file content session models configs bs nb mb xb None ra =
       translate_file content session models configs bs nb mb xb
         (Some 1%Qc) ra)
  ∧ (∀ content session models configs bs nb mb xb a ra,
       Forall (λ a', a' = default 1%Qc a)
         (search_alphas
            (trace (translate_file content session models configs bs nb mb
                      xb a ra).2)))
  ∧ (∀ h : hypothesis Hidden,
       normalize float_pow 0 h = score h ∧
       reported float_pow 0 h = (tokens h, score h)).
Proof.
  intros Hpow. split_and!; [done|done| |].
  - intros content session models configs bs nb mb xb a ra.
    unfold translate_file. destruct configs as [|config0 configs];
      [by constructor|].
    destruct (load_dictionaries config0) as [[[d1 d2] d3] d4].
    rewrite bind_run. unfold emit at 1. cbn [fst snd model_set trace app].
    rewrite read_loop_maxibatches; [|apply readlines_nonempty|simpl; lia].
    edestruct (run_maxibatches_appends session config0 (default 12 bs)
                 (default false nb) (default 80 mb) (default 1%Qc a)
                 (default false ra) d4) as (evs & k & -> & _ & Ha & _).
    cbn [trace]. by rewrite search_alphas_app.
  - intros h.
    assert (Hn : normalize float_pow 0 h = score h).
    { unfold normalize. destruct (score h) as [c|]; [|done].
      by rewrite Hpow, Qcdiv_1_r. }
    split; [done|]. unfold reported. rewrite Hn. by destruct (finished h).
Qed.
End default_claims.

(** * The claims about InferenceModelSet *)

Section InferenceModelSet_claims.
Context `{Collaborators}.

(** C5: a call to [beam_search] constructs a new beam-search graph exactly
    when none is cached or the cached one was built for another
    [beam_size]; afterwards the cached graph has the requested
    [beam_size]; a cached graph with the requested [beam_size] is passed
    to the search as it is and the model set is left unchanged. *)
Theorem beam_search_cache_rebuilt_iff session x x_mask beam_size alpha ra w :
  let cached := _cached_beam_search_graph (model_set w) in
  let w' := (beam_search session x x_mask beam_size alpha ra w).2 in
  let cached' := _cached_beam_search_graph (model_set w') in
  (graphs_built (trace w') = S (graphs_built (trace w)) ↔
     cached = None ∨ ∃ g, cached = Some g ∧ graph_beam_size g ≠ beam_size)
  ∧ (graphs_built (trace w') = graphs_built (trace w) ∨
     graphs_built (trace w') = S (graphs_built (trace w)))
  ∧ graph_beam_size <$> cached' = Some beam_size
  ∧ (∀ g, cached = Some g → graph_beam_size g = beam_size →
       model_set w' = model_set w ∧
       graphs_built (trace w') = graphs_built (trace w) ∧
       beam_search session x x_mask beam_size alpha ra w =
         (Return (rnn_beam_search session (_models (model_set w)) x x_mask
                    beam_size (default 0%Qc alpha) g (default false ra)),
          mkWorld (model_set w)
            (trace w ++ [RunBeamSearch x x_mask beam_size
                           (default 0%Qc alpha) g]))).
Proof.
  intros cached w' cached'. subst w' cached'.
  rewrite beam_search_run. subst cached.
  destruct (_cached_beam_search_graph (model_set w)) as [g|] eqn:Hc;
    [destruct (decide (graph_beam_size g = beam_size)) as [He|Hn]|];
    simpl; rewrite ?graphs_built_app, ?Hc; simpl;
    change (graphs_built [BuildBeamSearchGraph (_models (model_set w))
                             beam_size]) with 1;
    rewrite ?Nat.add_0_r; split_and!;
    try (intros g' [= <-] ?); try done; try lia; try (by left);
    try (right; lia).
  - split; [lia|]. intros [?|(g' & [= <-] & ?)]; done.
  - by rewrite He.
  - split; [|lia]. intros _. right. by exists g.
  - split; [|lia]. intros _. by left.
Qed.

(** C4: [sample] reads only the first model: two model sets that agree on
    their first model and on the cached sample graph give the same sample,
    the same effects and the same cached sample graph, whatever their
    other models are. *)
Theorem sample_ignores_later_scorers session x x_mask ra
    (model0 : Model) (others others' : list Model) sg bg bg' tr :
  let w1 := mkWorld (mkInferenceModelSet (model0 :: others) sg bg) tr in
  let w2 := mkWorld (mkInferenceModelSet (model0 :: others') sg bg') tr in
  let '(r1, w1') := sample session x x_mask ra w1 in
  let '(r2, w2') := sample session x x_mask ra w2 in
  r1 = r2
  ∧ (∃ graph, r1 = Return (rnn_sample session model0 x x_mask graph
                             (default false ra)))
  ∧ trace w1' = trace w2'
  ∧ _cached_sample_graph (model_set w1') =
    _cached_sample_graph (model_set w2')
  ∧ _models (model_set w1') = model0 :: others
  ∧ _models (model_set w2') = model0 :: others'.
Proof.
  destruct sg as [g|]; simpl; unfold sample; simpl;
    unfold mbind, M_bind; simpl; eauto 10.
Qed.

End InferenceModelSet_claims.

(** * Further properties of the code *)

(** ** Traces and model sets along a computation *)

Section tracks_facts.
Context `{Collaborators}.
Variable R : InferenceModelSet → list event → InferenceModelSet → Prop.
Hypothesis R_refl : ∀ s, R s [] s.
Hypothesis R_trans : ∀ s evs s1 evs' s2,
  R s evs s1 → R s1 evs' s2 → R s (evs ++ evs') s2.

Lemma tracks_ret {A} (a : A) : tracks R (mret a : M A).
Proof. intros w. exists []. by rewrite app_nil_r. Qed.

Lemma tracks_raise {A} e : tracks R (raise e : M A).
Proof. intros w. exists []. by rewrite app_nil_r. Qed.

Lemma tracks_get_self : tracks R get_self.
Proof. intros w. exists []. by rewrite app_nil_r. Qed.

Lemma tracks_emit e : (∀ s, R s [e] s) → tracks R (emit e).
Proof. intros He w. by exists [e]. Qed.

Lemma tracks_bind {A B} (m : M A) (f : A → M B) :
  tracks R m → (∀ a, tracks R (f a)) → tracks R (m ≫= f).
Proof.
  intros Hm Hf w. rewrite bind_run.
  destruct (Hm w) as (evs & Htr & Hevs).
  destruct (m w) as [[a|e] w']; simpl in *.
  - destruct (Hf a w') as (evs' & Htr' & Hevs').
    exists (evs ++ evs'). rewrite Htr', Htr, app_assoc. eauto.
  - by exists evs.
Qed.

Lemma tracks_for_each {A} (l : list A) (body : A → M unit) :
  (∀ a, tracks R (body a)) → tracks R (for_each l body).
Proof.
  intros Hbody. induction l as [|a l IH]; simpl.
  - apply tracks_ret.
  - apply tracks_bind; [done|]. by intros _.
Qed.
End tracks_facts.

Section discipline_facts.
Context `{Collaborators}.
Variables (models : list Model) (beam_size : nat) (ra : bool).

Lemma searches_app tr1 tr2 : searches (tr1 ++ tr2) = searches tr1 ++ searches tr2.
Proof. apply omap_app. Qed.

Lemma logged_app tr1 tr2 : logged (tr1 ++ tr2) = logged tr1 ++ logged tr2.
Proof. apply omap_app. Qed.

Lemma sample_runs_app tr1 tr2 :
  sample_runs (tr1 ++ tr2) = sample_runs tr1 ++ sample_runs tr2.
Proof. apply omap_app. Qed.

Lemma sample_graphs_built_app tr1 tr2 :
  sample_graphs_built (tr1 ++ tr2)
  = sample_graphs_built tr1 + sample_graphs_built tr2.
Proof. unfold sample_graphs_built. by rewrite omap_app, length_app. Qed.

Lemma scores_printed_app tr1 tr2 :
  scores_printed (tr1 ++ tr2) = scores_printed tr1 + scores_printed tr2.
Proof. unfold scores_printed. by rewrite omap_app, length_app. Qed.

Lemma alignment_prints_app tr1 tr2 :
  alignment_prints (tr1 ++ tr2) = alignment_prints tr1 + alignment_prints tr2.
Proof. unfold alignment_prints. by rewrite omap_app, length_app. Qed.

Lemma discipline_refl s : discipline models beam_size ra s [] s.
Proof. intros Hs. by split_and!; try done; try constructor. Qed.

Lemma discipline_trans s evs s1 evs' s2 :
  discipline models beam_size ra s evs s1 →
  discipline models beam_size ra s1 evs' s2 →
  discipline models beam_size ra s (evs ++ evs') s2.
Proof.
  intros H1 H2 Hs.
  destruct (H1 Hs) as (Hs1 & Hb1 & Hle1 & Hn1 & Hg1 & Hsg1 & Hsr1 & Hp1 & Hl1 & Ha1).
  destruct (H2 Hs1) as (Hs2 & Hb2 & Hle2 & Hn2 & Hg2 & Hsg2 & Hsr2 & Hp2 & Hl2 & Ha2).
  rewrite graphs_built_app, searches_app, sample_graphs_built_app,
    sample_runs_app, scores_printed_app, logged_app, alignment_prints_app,
    !length_app.
  split_and!; try done; try lia.
  - intros Hz. rewrite Hn2 by done. rewrite Hn1; [done|]. lia.
  - by apply Forall_app.
  - by rewrite Hsr1, Hsr2.
  - intros Hra. rewrite Ha1, Ha2 by done. done.
Qed.

(** An event that is no graph construction, search, sample, print or
    progress log. *)
Lemma discipline_quiet e s :
  match e with
  | Write _ | LogError _ | LogCap _ | EnterTranslateMaxibatch _ _ => True
  | PrintAlignmentHeader _ _ | PrintAlignment _ => ra = true
  | _ => False
  end →
  discipline models beam_size ra s [e] s.
Proof.
  intros He Hs. destruct e; try done;
    (split_and!; try done; try constructor; try (simpl; lia));
    intros ->; done.
Qed.
End discipline_facts.

(** ** The class InferenceModelSet *)

Section InferenceModelSet_more.
Context `{Collaborators}.

(** What one call of [sample] does, by cases on the models and the cache. *)
Lemma sample_run session x x_mask ra w :
  sample session x x_mask ra w =
  match _models (model_set w) with
  | [] => (Raise IndexError, w)
  | model :: _ =>
      match _cached_sample_graph (model_set w) with
      | Some g =>
          (Return (rnn_sample session model x x_mask g (default false ra)),
           mkWorld (model_set w) (trace w ++ [RunSample model x x_mask]))
      | None =>
          let g := new_SampleGraph model in
          (Return (rnn_sample session model x x_mask g (default false ra)),
           mkWorld (mkInferenceModelSet (_models (model_set w)) (Some g)
                      (_cached_beam_search_graph (model_set w)))
             ((trace w ++ [BuildSampleGraph model])
                ++ [RunSample model x x_mask]))
      end
  end.
Proof.
  destruct w as [[[|model ms] [g|] bg] tr]; done.
Qed.

(** X1: on a model set with at least one model, [sample] builds the
    sample graph of the first model when none is cached, and caches it;
    the next call builds nothing, runs on the same graph and leaves the
    model set as it is. *)
Theorem sample_builds_its_graph_once session x x_mask ra x' x_mask' ra'
    (model : Model) others sg bg tr :
  let w := mkWorld (mkInferenceModelSet (model :: others) sg bg) tr in
  let g := default (new_SampleGraph model) sg in
  let '(r1, w1) := sample session x x_mask ra w in
  let '(r2, w2) := sample session x' x_mask' ra' w1 in
  r1 = Return (rnn_sample session model x x_mask g (default false ra))
  ∧ r2 = Return (rnn_sample session model x' x_mask' g (default false ra'))
  ∧ model_set w1 = mkInferenceModelSet (model :: others) (Some g) bg
  ∧ model_set w2 = model_set w1
  ∧ sample_graphs_built (trace w1)
    = sample_graphs_built tr + (if sg is Some _ then 0 else 1)
  ∧ trace w2 = trace w1 ++ [RunSample model x' x_mask']
  ∧ sample_runs (trace w2) = sample_runs tr ++ [model; model].
Proof.
  intros w g. subst w g. rewrite sample_run. cbn [model_set _models
    _cached_sample_graph _cached_beam_search_graph trace].
  destruct sg as [g|]; cbn [default]; rewrite sample_run; cbn [model_set
    _models _cached_sample_graph _cached_beam_search_graph trace];
    rewrite ?sample_graphs_built_app, ?sample_runs_app, <-?app_assoc;
    split_and!; try done; simpl; lia.
Qed.

(** X2: [sample] fails exactly on a model set without models, with
    [IndexError] and no effect at all; in every case it leaves the models
    and the cached beam-search graph alone, and builds no beam-search
    graph and runs no beam search. *)
Theorem sample_fails_only_without_model session x x_mask ra w :
  let '(r, w') := sample session x x_mask ra w in
  (∀ e, r = Raise e ↔ _models (model_set w) = [] ∧ e = IndexError)
  ∧ (_models (model_set w) = [] → w' = w)
  ∧ _models (model_set w') = _models (model_set w)
  ∧ _cached_beam_search_graph (model_set w')
    = _cached_beam_search_graph (model_set w)
  ∧ graphs_built (trace w') = graphs_built (trace w)
  ∧ searches (trace w') = searches (trace w).
Proof.
  rewrite sample_run.
  destruct (_models (model_set w)) as [|model others] eqn:Hm;
    [|destruct (_cached_sample_graph (model_set w))];
    cbn [model_set _models _cached_beam_search_graph trace];
    rewrite ?graphs_built_app, ?searches_app, ?app_nil_r;
    split_and!; try done; try (simpl; lia).
  - intros e. split; [by intros [= <-]|by intros [_ ->]].
  - intros e. split; [done|by intros [? _]].
  - intros e. split; [done|by intros [? _]].
  - unfold graphs_built. simpl. lia.
Qed.

(** X3: [beam_search] reads no model out of the set and raises no
    exception of its own, also on an empty set; it hands all the models of
    the set to the search, with the graph that is cached when it returns
    (the one that was cached, or one built for these models and this
    [beam_size]); it leaves the models and the cached sample graph alone
    and runs no sample. *)
Theorem beam_search_uses_all_models session x x_mask beam_size alpha ra w :
  let '(r, w') := beam_search session x x_mask beam_size alpha ra w in
  ∃ g,
    r = Return (rnn_beam_search session (_models (model_set w)) x x_mask
                  beam_size (default 0%Qc alpha) g (default false ra))
    ∧ _cached_beam_search_graph (model_set w') = Some g
    ∧ (_cached_beam_search_graph (model_set w) = Some g
       ∨ g = new_BeamSearchGraph (_models (model_set w)) beam_size)
    ∧ searches (trace w') = searches (trace w) ++ [(beam_size, g)]
    ∧ _models (model_set w') = _models (model_set w)
    ∧ _cached_sample_graph (model_set w')
      = _cached_sample_graph (model_set w)
    ∧ sample_runs (trace w') = sample_runs (trace w)
    ∧ sample_graphs_built (trace w') = sample_graphs_built (trace w).
Proof.
  rewrite beam_search_run.
  destruct (_cached_beam_search_graph (model_set w)) as [g|] eqn:Hc;
    [destruct (decide (graph_beam_size g = beam_size))|];
    eexists; cbn [model_set _models _cached_sample_graph
      _cached_beam_search_graph trace];
    rewrite ?searches_app, ?sample_runs_app, ?sample_graphs_built_app,
      ?app_nil_r;
    split_and!; try done; try (by left); try (by right);
    unfold sample_graphs_built; simpl; lia.
Qed.

(** X4: the cache holds one graph. Of two calls of [beam_search] in a
    row, the second builds a graph exactly when it asks for another
    [beam_size] than the first, whatever was cached before; a call of
    [sample] in between changes nothing to that. *)
Theorem beam_search_second_call session x1 m1 b1 a1 r1 x2 m2 b2 a2 r2
    xs ms rs w :
  let w1 := (beam_search session x1 m1 b1 a1 r1 w).2 in
  let w2 := (beam_search session x2 m2 b2 a2 r2 w1).2 in
  let w1' := (sample session xs ms rs w1).2 in
  let w2' := (beam_search session x2 m2 b2 a2 r2 w1').2 in
  graphs_built (trace w2)
  = graphs_built (trace w1) + (if decide (b1 = b2) then 0 else 1)
  ∧ graphs_built (trace w2')
    = graphs_built (trace w1) + (if decide (b1 = b2) then 0 else 1)
  ∧ (b1 = b2 →
     _cached_beam_search_graph (model_set w2)
     = _cached_beam_search_graph (model_set w1)
     ∧ _cached_beam_search_graph (model_set w2')
       = _cached_beam_search_graph (model_set w1)).
Proof.
  intros w1 w2 w1' w2'.
  assert (H1 : ∃ g, _cached_beam_search_graph (model_set w1) = Some g
                    ∧ graph_beam_size g = b1).
  { unfold w1. rewrite beam_search_run.
    destruct (_cached_beam_search_graph (model_set w)) as [g|] eqn:Hc;
      [destruct (decide (graph_beam_size g = b1))|];
      cbn [snd model_set _cached_beam_search_graph]; eauto. }
  destruct H1 as (g1 & Hg1 & Hb1).
  assert (H1' : _cached_beam_search_graph (model_set w1') = Some g1
                ∧ graphs_built (trace w1') = graphs_built (trace w1)).
  { unfold w1'. rewrite sample_run.
    destruct (_models (model_set w1)); [done|].
    destruct (_cached_sample_graph (model_set w1));
      cbn [snd model_set trace _cached_beam_search_graph];
      rewrite ?graphs_built_app; split; try done;
      unfold graphs_built; simpl; lia. }
  destruct H1' as (Hg1' & Hbuilt).
  unfold w2, w2'. rewrite !beam_search_run, Hg1, Hg1'. rewrite <-Hbuilt at 2.
  destruct (decide (graph_beam_size g1 = b2)) as [He|Hne];
    destruct (decide (b1 = b2)) as [Hb|Hb]; try congruence;
    cbn [snd model_set trace _cached_beam_search_graph];
    rewrite ?graphs_built_app; split_and!; try done;
    unfold graphs_built; simpl; lia.
Qed.
End InferenceModelSet_more.

(** ** The whole run, whatever the input *)

Section discipline_runs.
Context `{Collaborators}.
Variables (session : Session) (config0 : Config) (models : list Model).
Variables (beam_size : nat) (nbest : bool) (minibatch_size : nat).
Variables (alpha : Qc) (ra : bool) (num_to_target : Dict).

Local Abbreviation R := (discipline models beam_size ra).

(** One search, with the print and the progress log that follow it. *)
Lemma beam_search_discipline x x_mask w :
  ∃ r evs w',
    beam_search session x x_mask beam_size (Some alpha) (Some ra) w
      = (Return r, w')
    ∧ trace w' = trace w ++ evs
    ∧ ∀ scores n,
        R (model_set w) (evs ++ [PrintScoresShape scores; LogTranslated n])
          (model_set w').
Proof.
  rewrite beam_search_run. destruct w as [[ms sg bg] tr]. cbn.
  destruct bg as [g|];
    [destruct (decide (graph_beam_size g = beam_size)) as [He|Hne]|];
    eexists _, _, _; (split; [reflexivity|]); cbn [trace];
    rewrite <-?app_assoc; (split; [reflexivity|]);
    intros scores n; unfold discipline, file_model_set;
    intros (Hm & Hsg & Hg); cbn in *; subst.
  - rewrite (Hg g eq_refl). unfold cached_graphs. cbn.
    split_and!; try done; try (simpl; lia).
    + by intros ? [= <-].
    + by repeat constructor.
  - rewrite (Hg g eq_refl) in Hne. done.
  - unfold cached_graphs. cbn.
    split_and!; try done; try (simpl; lia).
    + by intros ? [= <-].
    + by repeat constructor.
Qed.

Lemma tracks_translate_minibatches minibatches n beams alignments :
  tracks R (translate_minibatches session config0 beam_size alpha ra
              minibatches n beams alignments).
Proof.
  revert beams alignments.
  induction minibatches as [|x rest IH]; intros beams alignments;
    cbn [translate_minibatches].
  - apply tracks_ret, discipline_refl.
  - destruct (prepare_data x _ _) as [x' x_mask]. intros w.
    rewrite bind_run.
    destruct (beam_search_discipline x' x_mask w)
      as ([sample scores] & evs & w' & -> & Htr & HR).
    repeat (rewrite bind_run; unfold emit at 1; cbn [fst snd model_set trace]).
    match goal with
    | |- ∃ _, trace (?m ?w1).2 = _ ∧ _ =>
        destruct (IH (beams ++ sample) (alignments ++ scores) w1)
          as (evs' & -> & HR')
    end.
    cbn [model_set trace] in *.
    exists ((evs ++ [PrintScoresShape scores;
                     LogTranslated (n + length (beams ++ sample))]) ++ evs').
    split.
    + rewrite Htr, <-!app_assoc. done.
    + eapply discipline_trans; [apply HR|apply HR'].
Qed.

Lemma tracks_print_alignments alignments k :
  tracks (discipline models beam_size true) (print_alignments alignments k).
Proof.
  unfold print_alignments.
  apply tracks_for_each; [apply discipline_refl|apply discipline_trans|].
  intros i.
  apply tracks_for_each; [apply discipline_refl|apply discipline_trans|].
  intros j. apply tracks_bind; [apply discipline_trans|..].
  - apply tracks_emit. intros s. by apply discipline_quiet.
  - intros _. destruct (alignments !! i ≫= _).
    + apply tracks_emit. intros s. by apply discipline_quiet.
    + apply tracks_raise, discipline_refl.
Qed.

Lemma tracks_write_beam n i beam :
  tracks R (write_beam nbest num_to_target n i beam).
Proof.
  unfold write_beam. destruct nbest.
  - apply tracks_for_each; [apply discipline_refl|apply discipline_trans|].
    intros h. apply tracks_emit. intros s. by apply discipline_quiet.
  - destruct beam; [apply tracks_raise, discipline_refl|].
    apply tracks_emit. intros s. by apply discipline_quiet.
Qed.

Lemma tracks_translate_maxibatch maxibatch n :
  tracks R (translate_maxibatch session config0 beam_size nbest
              minibatch_size alpha ra maxibatch num_to_target n).
Proof.
  unfold translate_maxibatch.
  apply tracks_bind; [apply discipline_trans|..].
  { apply tracks_emit. intros s. by apply discipline_quiet. }
  intros _.
  destruct (read_all_lines _ _ _) as [[]|[minibatches idxs]];
    try apply tracks_raise, discipline_refl.
  - apply tracks_bind; [apply discipline_trans|..].
    + apply tracks_emit. intros s. by apply discipline_quiet.
    + intros _. apply tracks_raise, discipline_refl.
  - apply tracks_bind;
      [apply discipline_trans|apply tracks_translate_minibatches|].
    intros [beams alignments].
    apply tracks_bind; [apply discipline_trans|..].
    + destruct ra eqn:Hra; [|apply tracks_ret, discipline_refl].
      apply tracks_bind;
        [apply discipline_trans|apply tracks_get_self, discipline_refl|].
      intros self. apply tracks_print_alignments.
    + intros _. destruct (fancy_index _ _);
        [|apply tracks_raise, discipline_refl].
      apply tracks_for_each; [apply discipline_refl|apply discipline_trans|].
      intros [i beam]. apply tracks_write_beam.
Qed.

Lemma tracks_run_maxibatches chunks n :
  tracks R (run_maxibatches session config0 beam_size nbest minibatch_size
              alpha ra chunks num_to_target n).
Proof.
  revert n. induction chunks as [|chunk chunks IH]; intros n;
    cbn [run_maxibatches].
  - apply tracks_ret, discipline_refl.
  - apply tracks_bind;
      [apply discipline_trans|apply tracks_translate_maxibatch|].
    intros _. apply IH.
Qed.
End discipline_runs.

Section translate_file_discipline.
Context `{Collaborators}.

Lemma translate_file_defaults content session models configs bs nb mb xb a ra :
  translate_file content session models configs bs nb mb xb a ra =
  translate_file content session models configs (Some (default 12 bs))
    (Some (default false nb)) (Some (default 80 mb)) (Some (default 20 xb))
    (Some (default 1%Qc a)) (Some (default false ra)).
Proof. done. Qed.

Lemma translate_file_tracks content session models configs bs nb mb xb a ra :
  let w := (translate_file content session models configs bs nb mb xb a
              ra).2 in
  ∃ evs,
    (trace w = evs ∨ ∃ cap, trace w = LogCap cap :: evs)
    ∧ discipline models (default 12 bs) (default false ra)
        (__init__ models configs) evs (model_set w).
Proof.
  intros w. subst w. destruct configs as [|config0 configs].
  { exists []. split; [by left|apply discipline_refl]. }
  rewrite translate_file_defaults, translate_file_unfold.
  edestruct (tracks_run_maxibatches session config0 models (default 12 bs)
               (default false nb) (default 80 mb) (default 1%Qc a)
               (default false ra)) as (evs & Htr & HR).
  exists evs. split; [right; eexists; exact Htr|exact HR].
Qed.
End translate_file_discipline.

Section translate_file_always.
Context `{Collaborators}.

(** X5: whatever the input and however the run ends, [translate_file]
    builds at most one beam-search graph, and exactly one as soon as it
    runs a search; every search runs with the given [beam_size] on the
    graph built for all the [models] and that [beam_size]; it never
    samples and never builds a sample graph, and its model set keeps the
    models it was given. *)
Theorem translate_file_builds_one_graph content session models configs
    bs nb mb xb a ra :
  let w := (translate_file content session models configs bs nb mb xb a
              ra).2 in
  let beam_size := default 12 bs in
  graphs_built (trace w) = Nat.min 1 (length (searches (trace w)))
  ∧ Forall (λ r, r = (beam_size, new_BeamSearchGraph models beam_size))
      (searches (trace w))
  ∧ sample_graphs_built (trace w) = 0
  ∧ sample_runs (trace w) = []
  ∧ _models (model_set w) = models
  ∧ _cached_sample_graph (model_set w) = None.
Proof.
  intros w beam_size.
  destruct (translate_file_tracks content session models configs bs nb mb
              xb a ra) as (evs & Htr & HR).
  fold w in Htr, HR.
  destruct HR as ((Hm & Hsg & Hg) & Hb & Hle & Hn & Hs & Hsb & Hsr & _);
    [by split_and!|].
  assert (Hobs : graphs_built (trace w) = graphs_built evs
                 ∧ searches (trace w) = searches evs
                 ∧ sample_graphs_built (trace w) = sample_graphs_built evs
                 ∧ sample_runs (trace w) = sample_runs evs).
  { by destruct Htr as [->|[cap ->]]. }
  destruct Hobs as (-> & -> & -> & ->).
  split_and!; try done.
  unfold cached_graphs in *. cbn in Hb.
  destruct (_cached_beam_search_graph (model_set w)).
  - destruct (searches evs); simpl in *; lia.
  - rewrite Hn by done. simpl. lia.
Qed.

(** X6: whatever the input and however the run ends, every search is
    followed by one "scores" line on standard output and one progress
    log, also when no alignments were asked for; and [print_alignments]
    prints only when [return_alignments] is set. *)
Theorem translate_file_prints_per_search content session models configs
    bs nb mb xb a ra :
  let w := (translate_file content session models configs bs nb mb xb a
              ra).2 in
  scores_printed (trace w) = length (searches (trace w))
  ∧ length (logged (trace w)) = length (searches (trace w))
  ∧ (default false ra = false → alignment_prints (trace w) = 0).
Proof.
  intros w.
  destruct (translate_file_tracks content session models configs bs nb mb
              xb a ra) as (evs & Htr & HR).
  fold w in Htr, HR.
  destruct HR as (_ & _ & _ & _ & _ & _ & _ & Hp & Hl & Ha);
    [by split_and!|].
  assert (Hobs : scores_printed (trace w) = scores_printed evs
                 ∧ searches (trace w) = searches evs
                 ∧ logged (trace w) = logged evs
                 ∧ alignment_prints (trace w) = alignment_prints evs).
  { by destruct Htr as [->|[cap ->]]. }
  destruct Hobs as (-> & -> & -> & ->). done.
Qed.
End translate_file_always.

(** ** The maxibatches of a run *)

Section run_maxibatches_always.
Context `{Collaborators}.
Variables (session : Session) (config0 : Config).
Variables (beam_size : nat) (nbest : bool) (minibatch_size : nat).
Variables (alpha : Qc) (ra : bool) (num_to_target : Dict).

Local Abbreviation run :=
  (run_maxibatches session config0 beam_size nbest minibatch_size alpha ra).

(** However the calls of [translate_maxibatch] end: those made are the
    first [k] maxibatches; all of them when the loop returns, at least one
    when it fails. *)
Lemma run_maxibatches_entered chunks n w :
  ∃ evs k,
    trace (run chunks num_to_target n w).2 = trace w ++ evs
    ∧ entered evs = take k (numbered n chunks)
    ∧ k ≤ length chunks
    ∧ (∀ m, (run chunks num_to_target n w).1 = Return m →
         m = n + length (concat chunks) ∧ k = length chunks)
    ∧ (∀ e, (run chunks num_to_target n w).1 = Raise e → 0 < k).
Proof.
  revert n w. induction chunks as [|chunk chunks IH]; intros n w.
  - exists [], 0. simpl. rewrite app_nil_r, Nat.add_0_r.
    split_and!; try done. by intros m [= <-].
  - cbn [run_maxibatches numbered]. rewrite bind_run.
    destruct (translate_maxibatch_appends session config0 beam_size nbest
                minibatch_size alpha ra num_to_target chunk n w)
      as (evs1 & Htr1 & Hevs1).
    assert (He1 : entered (EnterTranslateMaxibatch chunk n :: evs1)
                  = [(chunk, n)]).
    { change (entered (EnterTranslateMaxibatch chunk n :: evs1))
        with ((chunk, n) :: entered evs1).
      by rewrite (maxibatch_event_entered alpha). }
    destruct (translate_maxibatch _ _ _ _ _ _ _ _ _ _ _) as [[[]|e] w1];
      cbn [fst snd] in *.
    + destruct (IH (n + length chunk) w1)
        as (evs2 & k & Htr2 & He2 & Hk & Hret & Hraise).
      exists ((EnterTranslateMaxibatch chunk n :: evs1) ++ evs2), (S k).
      rewrite Htr2, Htr1, <-app_assoc, entered_app, He1, He2.
      split_and!; try done; try (simpl; lia); try (intros; lia).
      intros m Hm. destruct (Hret m Hm) as [-> ->].
      split; [|done]. simpl. rewrite length_app. lia.
    + exists (EnterTranslateMaxibatch chunk n :: evs1), 1.
      rewrite He1. split_and!; try done; simpl; lia.
Qed.
End run_maxibatches_always.



Section translate_file_prefix.
Context `{Collaborators}.

(** X7: an input of at most [maxibatch_size * minibatch_size] lines
    (1600 lines with the default sizes) is one maxibatch:
    [translate_maxibatch] is called once, at end of input, with all the
    lines. The same holds for every input when that capacity is 0
    ([maxibatch_size] or [minibatch_size] is 0), since the buffer then
    never reaches the capacity. *)
Theorem translate_file_single_maxibatch content session models config0
    configs bs nb mb xb a ra :
  let cap := default 20 xb * default 80 mb in
  cap = 0 ∨ length (readlines content) ≤ cap → content ≠ "" →
  entered (trace (translate_file content session models (config0 :: configs)
                    bs nb mb xb a ra).2)
  = [(readlines content, 0)].
Proof.
  intros cap Hcap Hcontent.
  rewrite translate_file_defaults, translate_file_unfold. fold cap.
  assert (Hchunks : maxibatches cap (readlines content) = [readlines content]).
  { apply maxibatches_short; [|done].
    destruct (readlines content) eqn:Hl; [|simpl; lia].
    by apply readlines_nil in Hl. }
  rewrite Hchunks.
  edestruct (run_maxibatches_entered session config0 (default 12 bs)
              (default false nb) (default 80 mb) (default 1%Qc a)
              (default false ra) (load_dictionaries config0).2
              [readlines content] 0)
    as (evs & k & -> & He & Hk & Hret & Hraise).
  cbn [trace app].
  change (entered (LogCap ?c :: evs)) with (entered evs).
  rewrite He.
  match goal with
  | Hret : ∀ m, ?o.1 = Return m → _ |- _ => destruct o.1 as [m|e] eqn:Ho
  end.
  - destruct (Hret m eq_refl) as [_ ->]. done.
  - specialize (Hraise e eq_refl). simpl in Hk.
    assert (k = 1) as -> by lia. done.
Qed.

End translate_file_prefix.

(** ** Restoring the order of the input *)

Lemma fancy_index_is_Some {A} (a : list A) ixs :
  is_Some (fancy_index a ixs) ↔ Forall (λ i, i < length a) ixs.
Proof.
  unfold fancy_index. rewrite mapM_is_Some.
  apply Forall_proper; [|done]. intros i. apply lookup_lt_is_Some.
Qed.

Lemma fancy_index_take {A} (a : list A) ixs n :
  Forall (λ i, i < n) ixs →
  fancy_index (take n a) ixs = fancy_index a ixs.
Proof.
  intros Hix. unfold fancy_index.
  induction Hix as [|i ixs Hi _ IH]; [done|].
  cbn. rewrite lookup_take_lt by done.  by rewrite IH.
Qed.

(** X9: putting the beams back into the order of the input,
    [tmp[idxs.argsort()]], fails with [IndexError] exactly when there are
    fewer beams than entries of [idxs]; otherwise it gives one beam per
    entry of [idxs], a rearrangement of the first [len(idxs)] beams: beams
    beyond that number are dropped without notice. *)
Theorem restoring_order_needs_every_beam {A} (beams : list A)
    (idxs : list nat) :
  (fancy_index beams (argsort idxs) = None ↔ length beams < length idxs)
  ∧ (∀ ordered,
       fancy_index beams (argsort idxs) = Some ordered →
       length ordered = length idxs
       ∧ ordered ≡ₚ take (length idxs) beams
       ∧ fancy_index (take (length idxs) beams) (argsort idxs)
         = Some ordered).
Proof.
  assert (Hiff : is_Some (fancy_index beams (argsort idxs))
                 ↔ length idxs ≤ length beams).
  { rewrite fancy_index_is_Some, argsort_Permutation, Forall_forall.
    split.
    - intros Hall. destruct (length idxs) as [|k] eqn:Hk; [lia|].
      specialize (Hall k). rewrite elem_of_seq in Hall. lia.
    - intros Hle i Hi%elem_of_seq. lia. }
  split.
  - rewrite eq_None_not_Some, Hiff. lia.
  - intros ordered Hord.
    assert (Hle : length idxs ≤ length beams).
    { apply Hiff. by rewrite Hord. }
    assert (Hlen : length ordered = length idxs).
    { apply mapM_Some, Forall2_length in Hord.
      by rewrite length_argsort in Hord. }
    assert (Htake : fancy_index (take (length idxs) beams) (argsort idxs)
                    = Some ordered).
    { rewrite fancy_index_take; [done|].
      apply Forall_forall. by intros i Hi%argsort_lt. }
    split_and!; [done| |done].
    destruct (take (length idxs) beams) as [|b bs] eqn:Hb.
    + assert (length idxs = 0) as Hz.
      { apply (f_equal length) in Hb. rewrite length_take in Hb.
        simpl in Hb. lia. }
      destruct ordered; [done|simpl in *; lia].
    + pose (Hinh := populate b). rewrite <-Hb in *. clear Hb.
      rewrite fancy_index_Some in Htake.
      * injection Htake as <-.
        rewrite argsort_Permutation.
        replace (length idxs) with (length (take (length idxs) beams)) at 1
          by (rewrite length_take; lia).
        by rewrite fmap_lookup_total_seq.
      * apply Forall_forall. intros i Hi%argsort_lt.
        rewrite length_take. lia.
Qed.

(** ** Reading the input *)


(** ** Inside a maxibatch *)

Section translate_maxibatch_order.
Context `{Collaborators}.
Variables (session : Session) (config0 : Config).
Variables (beam_size : nat) (nbest : bool) (minibatch_size : nat).
Variables (alpha : Qc) (ra : bool) (num_to_target : Dict).

(** [beam_search] always returns, after one search and no write. *)
Lemma beam_search_returns x x_mask a r w :
  ∃ res evs w',
    beam_search session x x_mask beam_size a r w = (Return res, w')
    ∧ trace w' = trace w ++ evs
    ∧ written evs = []
    ∧ length (searches evs) = 1.
Proof.
  rewrite beam_search_run.
  destruct (_cached_beam_search_graph (model_set w)) as [g|];
    [destruct (decide (graph_beam_size g = beam_size))|];
    eexists _, _, _; cbn [trace]; rewrite <-?app_assoc;
    by split_and!.
Qed.

(** The loop over the minibatches always returns, after one search per
    minibatch and no write. *)
Lemma translate_minibatches_returns minibatches n beams alignments w :
  ∃ res evs w',
    translate_minibatches session config0 beam_size alpha ra minibatches n
      beams alignments w = (Return res, w')
    ∧ trace w' = trace w ++ evs
    ∧ written evs = []
    ∧ length (searches evs) = length minibatches.
Proof.
  revert beams alignments w.
  induction minibatches as [|x rest IH]; intros beams alignments w;
    cbn [translate_minibatches].
  - exists (beams, alignments), [], w. by rewrite app_nil_r.
  - destruct (prepare_data x _ _) as [x' x_mask]. rewrite bind_run.
    destruct (beam_search_returns x' x_mask (Some alpha) (Some ra) w)
      as ([sample scores] & evs & w' & -> & Htr & Hw & Hs).
    repeat (rewrite bind_run; unfold emit at 1; cbn [fst snd model_set trace]).
    match goal with
    | |- ∃ _ _ _, ?m ?w1 = _ ∧ _ =>
        destruct (IH (beams ++ sample) (alignments ++ scores) w1)
          as (res & evs' & w2 & -> & Htr' & Hw' & Hs')
    end.
    cbn [trace] in Htr'.
    exists res, (evs ++ [PrintScoresShape scores;
                        LogTranslated (n + length (beams ++ sample))]
                   ++ evs'), w2.
    rewrite Htr', Htr, <-!app_assoc, !written_app, !searches_app, !length_app,
      Hw, Hw', Hs, Hs'.
    by split_and!.
Qed.

Lemma silent_Forall evs :
  Forall silent evs → written evs = [] ∧ searches evs = [] ∧ logged evs = [].
Proof.
  induction 1 as [|e evs (Hw & Hs & Hl) _ (IHw & IHs & IHl)]; [done|].
  change (e :: evs) with ([e] ++ evs).
  by rewrite written_app, searches_app, logged_app, Hw, Hs, Hl, IHw, IHs, IHl.
Qed.

Lemma appends_silent_print_alignments alignments k :
  appends silent (print_alignments alignments k).
Proof.
  apply appends_for_each. intros i. apply appends_for_each. intros j.
  apply appends_bind; [by apply appends_emit|]. intros _.
  destruct (alignments !! i ≫= _);
    [by apply appends_emit|apply appends_raise].
Qed.

Lemma appends_silent_alignments (alignments : list (list Align)) :
  appends silent
    (if ra then self ← get_self;
                print_alignments alignments (length (_models self))
     else mret ()).
Proof.
  destruct ra; [|apply appends_ret].
  apply appends_bind; [apply appends_get_self|]. intros self.
  apply appends_silent_print_alignments.
Qed.

Lemma Forall_Write evs :
  Forall (λ e, ∃ line, e = Write line) evs → evs = Write <$> written evs.
Proof.
  induction 1 as [|e evs [line ->] _ IH]; [done|].
  change (written (Write line :: evs)) with (line :: written evs).
  rewrite fmap_cons. by f_equal.
Qed.

Lemma appends_Write_write_beam n i beam :
  appends (λ e, ∃ line, e = Write line)
    (write_beam nbest num_to_target n i beam).
Proof.
  unfold write_beam. destruct nbest.
  - apply appends_for_each. intros h. apply appends_emit. by eexists.
  - destruct beam; [apply appends_raise|apply appends_emit; by eexists].
Qed.

Lemma logged_Write lines : logged (Write <$> lines) = [].
Proof. by induction lines. Qed.

Lemma appends_Write_writes n (beams : list Beam) idxs :
  appends (λ e, ∃ line, e = Write line)
    (match fancy_index beams (argsort idxs) with
     | Some ordered_beams =>
         for_each (enumerate ordered_beams) (λ '(i, beam),
           write_beam nbest num_to_target n i beam)
     | None => raise IndexError
     end).
Proof.
  destruct (fancy_index _ _); [|apply appends_raise].
  apply appends_for_each. intros [i beam]. apply appends_Write_write_beam.
Qed.

(** X11: in every call of [translate_maxibatch], all the searches of the
    maxibatch, one per minibatch, come before its first write: the trace
    is the entry, then events without a write, then writes only. When
    [read_all_lines] fails there is no search and no write; the
    data-format error becomes exit status 1, any other error is passed
    on. *)
Theorem translate_maxibatch_searches_then_writes maxibatch n w :
  let out := translate_maxibatch session config0 beam_size nbest
               minibatch_size alpha ra maxibatch num_to_target n w in
  ∃ evs lines,
    trace out.2 = trace w ++ EnterTranslateMaxibatch maxibatch n :: evs
                    ++ (Write <$> lines)
    ∧ written evs = []
    ∧ (∀ minibatches idxs,
         read_all_lines config0 maxibatch minibatch_size
           = inr (minibatches, idxs) →
         length (searches evs) = length minibatches)
    ∧ (∀ e, read_all_lines config0 maxibatch minibatch_size = inl e →
         searches evs = [] ∧ lines = []
         ∧ out.1 = Raise (match e with
                          | DataError _ => SystemExit 1
                          | _ => e
                          end)).
Proof.
  intros out. subst out. unfold translate_maxibatch.
  rewrite bind_run. unfold emit at 1. cbn [fst snd model_set trace].
  destruct (read_all_lines config0 maxibatch minibatch_size)
    as [e|[minibatches idxs]] eqn:Hread.
  - destruct e as [status| | |msg];
      [exists [], []..|exists [LogError msg], []];
      rewrite ?bind_run; unfold emit, raise;
      cbn; rewrite <-?app_assoc;
      (split_and!; [done|done|done|]); by intros ? [= <-].
  - rewrite bind_run.
    destruct (translate_minibatches_returns minibatches n [] []
                (mkWorld (model_set w)
                   (trace w ++ [EnterTranslateMaxibatch maxibatch n])))
      as ([beams alignments] & evs1 & w1 & -> & Htr1 & Hw1 & Hs1).
    cbn [trace] in Htr1. rewrite bind_run.
    destruct (appends_silent_alignments alignments w1)
      as (evs2 & Htr2 & (Hw2 & Hs2 & _)%silent_Forall).
    destruct ((if ra then self ← get_self;
                            print_alignments alignments
                              (length (_models self))
               else mret ()) w1) as [[[]|e] w2]; cbn [snd] in Htr2.
    + destruct (appends_Write_writes n beams idxs w2)
        as (evs3 & -> & ->%Forall_Write).
      exists (evs1 ++ evs2), (written evs3).
      rewrite Htr2, Htr1, <-!app_assoc, written_app, searches_app, length_app,
        Hw1, Hw2, Hs1, Hs2.
      cbn [app length]. split_and!; try done.
      intros ? ? [= <- <-]. lia.
    + exists (evs1 ++ evs2), []. cbn [snd].
      rewrite Htr2, Htr1, <-!app_assoc, written_app, searches_app, length_app,
        Hw1, Hw2, Hs1, Hs2.
      cbn [app length fmap list_fmap]. rewrite app_nil_r.
      split_and!; try done.
      intros ? ? [= <- <-]. lia.
Qed.
End translate_maxibatch_order.

(** ** The progress log *)

Lemma running_totals_app n sizes1 sizes2 :
  running_totals n (sizes1 ++ sizes2)
  = running_totals n sizes1 ++ running_totals (n + sum_list sizes1) sizes2.
Proof.
  revert n. induction sizes1 as [|s sizes1 IH]; intros n; simpl.
  - by rewrite Nat.add_0_r.
  - by rewrite IH, Nat.add_assoc.
Qed.

Lemma last_running_totals n sizes :
  sizes ≠ [] → last (running_totals n sizes) = Some (n + sum_list sizes).
Proof.
  revert n. induction sizes as [|s sizes IH]; intros n Hne; [done|].
  destruct sizes as [|s' sizes]; simpl.
  - by rewrite Nat.add_0_r.
  - rewrite Nat.add_assoc. by apply (IH (n + s)).
Qed.

Lemma running_totals_gt n sizes :
  Forall (λ s, 0 < s) sizes → Forall (λ m, n < m) (running_totals n sizes).
Proof.
  intros Hpos. revert n.
  induction Hpos as [|s sizes Hs _ IH]; intros n; simpl; constructor; [lia|].
  eapply Forall_impl; [apply IH|]. intros m Hm. simpl in Hm. lia.
Qed.

Lemma running_totals_increasing n sizes :
  Forall (λ s, 0 < s) sizes → StronglySorted lt (running_totals n sizes).
Proof.
  intros Hpos. revert n.
  induction Hpos as [|s sizes Hs Hpos IH]; intros n; simpl; constructor.
  - apply IH.
  - by apply running_totals_gt.
Qed.

Section progress_log.
Context `{Collaborators}.
Variables (session : Session) (config0 : Config) (models : list Model).
Variables (beam_size : nat) (nbest : bool) (minibatch_size : nat).
Variables (alpha : Qc) (ra : bool) (num_to_target : Dict).

Local Abbreviation search :=
  (search_minibatch session config0 models beam_size alpha ra).
Local Abbreviation contract :=
  (search_contract session config0 models beam_size alpha ra).

Lemma beam_search_ready_logged x x_mask w :
  ready models w →
  ∃ evs,
    beam_search session x x_mask beam_size (Some alpha) (Some ra) w =
      (Return (rnn_beam_search session models x x_mask beam_size alpha
                 (new_BeamSearchGraph models beam_size) ra),
       mkWorld (mkInferenceModelSet models
                  (_cached_sample_graph (model_set w))
                  (Some (new_BeamSearchGraph models beam_size)))
         (trace w ++ evs))
    ∧ logged evs = [].
Proof.
  intros [Hm Hg]. rewrite beam_search_run.
  destruct w as [[ms sg bg] tr]; simpl in *. subst ms.
  destruct bg as [g|]; simpl.
  - destruct (decide (graph_beam_size g = beam_size)) as [He|Hn].
    + specialize (Hg g eq_refl). destruct g as [gm gb]; simpl in *.
      subst gm gb. by eexists [_].
    + eexists [_; _]. by rewrite <-app_assoc.
  - eexists [_; _]. by rewrite <-app_assoc.
Qed.

(** The progress log after each minibatch: the sentences translated
    before the maxibatch plus those of the minibatches searched so far. *)
Lemma translate_minibatches_logged minibatches n beams alignments w :
  ready models w → contract →
  ∃ evs w',
    translate_minibatches session config0 beam_size alpha ra minibatches n
      beams alignments w =
      (Return (beams ++ (minibatches ≫= λ x, (search x).1),
               alignments ++ (minibatches ≫= λ x, (search x).2)), w')
    ∧ ready models w'
    ∧ trace w' = trace w ++ evs
    ∧ logged evs
      = running_totals (n + length beams) (length <$> minibatches).
Proof.
  intros Hr Hc. revert beams alignments w Hr.
  induction minibatches as [|x rest IH]; intros beams alignments w Hr.
  - exists [], w. simpl. rewrite !app_nil_r. by split_and!.
  - simpl. unfold search_minibatch at 1 3.
    pose proof (Hc x) as (Hlen & _). unfold search_minibatch in Hlen.
    destruct (prepare_data x _ _) as [x' x_mask].
    rewrite bind_run.
    destruct (beam_search_ready_logged x' x_mask w Hr) as (evs & -> & Hevs).
    destruct (rnn_beam_search _ _ _ _ _ _ _ _) as [sample scores].
    cbn [fst] in Hlen.
    repeat (rewrite bind_run; simpl).
    edestruct (IH (beams ++ sample) (alignments ++ scores))
      as (evs' & w' & Heq & Hr' & Htr & Hevs');
      [apply ready_cached|].
    rewrite Heq. clear Heq.
    exists (evs ++ [PrintScoresShape scores;
                    LogTranslated (n + length (beams ++ sample))] ++ evs'),
      w'.
    split_and!; [by rewrite <-!app_assoc|done| |].
    + rewrite Htr. simpl. by rewrite <-!app_assoc.
    + rewrite !logged_app, Hevs, Hevs'. rewrite !length_app, Hlen.
      cbn. by rewrite !Nat.add_assoc.
Qed.

Lemma translate_maxibatch_logged maxibatch n w minibatches idxs :
  ready models w → contract →
  read_all_lines config0 maxibatch minibatch_size = inr (minibatches, idxs) →
  ∃ evs,
    trace (translate_maxibatch session config0 beam_size nbest
             minibatch_size alpha ra maxibatch num_to_target n w).2
    = trace w ++ evs
    ∧ logged evs = running_totals n (length <$> minibatches).
Proof.
  intros Hr Hc Hread. unfold translate_maxibatch.
  rewrite bind_run. unfold emit at 1. cbn [fst snd]. rewrite Hread.
  rewrite bind_run.
  edestruct (translate_minibatches_logged minibatches n [] [])
    as (evs1 & w1 & -> & Hr1 & Htr1 & Hl1);
    [split; [apply Hr|apply Hr]|done|].
  cbn [model_set trace length] in Htr1, Hl1. rewrite Nat.add_0_r in Hl1.
  rewrite !app_nil_l, bind_run.
  destruct (appends_silent_alignments ra
              (minibatches ≫= λ x, (search x).2) w1)
    as (evs2 & Htr2 & (_ & _ & Hl2)%silent_Forall).
  destruct ((if ra then self ← get_self;
                          print_alignments
                            (minibatches ≫= λ x, (search x).2)
                            (length (_models self))
             else mret ()) w1) as [[[]|e] w2]; cbn [snd] in Htr2.
  - destruct (appends_Write_writes nbest num_to_target n
                (minibatches ≫= λ x, (search x).1) idxs w2)
      as (evs3 & -> & ->%Forall_Write).
    exists ([EnterTranslateMaxibatch maxibatch n] ++ evs1 ++ evs2
              ++ (Write <$> written evs3)).
    rewrite Htr2, Htr1, <-!app_assoc. split; [done|].
    by rewrite !logged_app, Hl1, Hl2, logged_Write, !app_nil_r.
  - exists ([EnterTranslateMaxibatch maxibatch n] ++ evs1 ++ evs2).
    cbn [snd]. rewrite Htr2, Htr1, <-!app_assoc. split; [done|].
    by rewrite !logged_app, Hl1, Hl2, !app_nil_r.
Qed.

Lemma run_maxibatches_logged chunks n w :
  ready models w → contract →
  nbest = true ∨ 0 < beam_size → 0 < minibatch_size →
  Forall (Forall (λ line, ∃ p, parse_sentence config0 line = inr p))
    chunks →
  ∃ sizes evs,
    trace (run_maxibatches session config0 beam_size nbest minibatch_size
             alpha ra chunks num_to_target n w).2 = trace w ++ evs
    ∧ logged evs = running_totals n sizes
    ∧ Forall (λ s, 0 < s ≤ minibatch_size) sizes
    ∧ sum_list sizes = length (concat chunks).
Proof.
  intros Hr Hc Hbs Hmb Hwf. revert n w Hr.
  induction Hwf as [|chunk chunks Hchunk _ IH]; intros n w Hr.
  - exists [], []. simpl. by rewrite app_nil_r.
  - cbn [run_maxibatches]. rewrite bind_run.
    destruct (read_all_lines_wf config0 chunk minibatch_size Hmb Hchunk)
      as (minibatches & idxs & Hread).
    destruct (translate_maxibatch_logged chunk n w minibatches idxs
                Hr Hc Hread) as (evs1 & Htr1 & Hl1).
    edestruct (translate_maxibatch_run session config0 models beam_size
                 nbest minibatch_size alpha ra num_to_target chunk n w)
      as (evs0 & w1 & Heq & Hr1 & _ & _); [done..|].
    rewrite Heq in Htr1 |- *. cbn [snd] in Htr1.
    destruct (read_all_lines_inr _ _ _ _ _ Hread)
      as (parsed & _ & _ & _ & Hlen & Hcat & Hsz).
    assert (Hsum : sum_list (length <$> minibatches) = length chunk).
    { rewrite <-length_concat, Hcat, length_fmap. done. }
    destruct (IH (n + length chunk) w1 Hr1)
      as (sizes & evs2 & Htr2 & Hl2 & Hsizes & Hsum2).
    exists ((length <$> minibatches) ++ sizes), (evs1 ++ evs2).
    split_and!.
    + by rewrite Htr2, Htr1, <-app_assoc.
    + by rewrite logged_app, running_totals_app, Hl1, Hl2, Hsum.
    + apply Forall_app. split; [|done]. by apply Forall_fmap.
    + rewrite sum_list_with_app, Hsum, Hsum2, concat_cons, length_app. done.
Qed.
End progress_log.

Section progress_log_file.
Context `{Collaborators}.
Variables (session : Session) (models : list Model).
Variables (config0 : Config) (configs : list Config).
Variables (beam_size minibatch_size maxibatch_size : nat).
Variables (alpha : Qc) (ra : bool).

(** X12: on a well-formed input the progress log reports, after every
    minibatch, the number of sentences translated so far: the counts are
    running totals of the sizes of the minibatches, each between 1 and
    [minibatch_size], so they increase strictly, and the last one is the
    number of lines of the input. *)
Theorem translate_file_progress_log nbest content :
  0 < minibatch_size → nbest = true ∨ 0 < beam_size →
  Forall (λ line, ∃ p, parse_sentence config0 line = inr p)
    (readlines content) →
  search_contract session config0 models beam_size alpha ra →
  let w := (translate_file content session models (config0 :: configs)
              (Some beam_size) (Some nbest) (Some minibatch_size)
              (Some maxibatch_size) (Some alpha) (Some ra)).2 in
  ∃ sizes,
    logged (trace w) = running_totals 0 sizes
    ∧ Forall (λ s, 0 < s ≤ minibatch_size) sizes
    ∧ sum_list sizes = length (readlines content)
    ∧ StronglySorted lt (logged (trace w))
    ∧ (content ≠ "" →
       last (logged (trace w)) = Some (length (readlines content))).
Proof.
  intros Hmb Hbs Hwf Hc w. subst w. rewrite translate_file_unfold.
  destruct (maxibatches_spec (maxibatch_size * minibatch_size)
              (readlines content)) as [Hcat _].
  edestruct (run_maxibatches_logged session config0 models beam_size nbest
               minibatch_size alpha ra (load_dictionaries config0).2
               (maxibatches (maxibatch_size * minibatch_size)
                  (readlines content)) 0)
    as (sizes & evs & -> & Hl & Hsizes & Hsum);
    [apply ready_init|done..| |].
  { apply Forall_concat. by rewrite Hcat. }
  rewrite Hcat in Hsum. cbn [trace app].
  change (logged (LogCap ?c :: evs)) with (logged evs). rewrite Hl.
  exists sizes. split_and!; [done..| |].
  - apply running_totals_increasing.
    eapply Forall_impl; [done|]. simpl. lia.
  - intros Hne. rewrite last_running_totals, Hsum; [done|].
    intros ->. simpl in Hsum.
    destruct (readlines content) eqn:Hlines; [|done].
    by apply readlines_nil in Hlines.
Qed.
End progress_log_file.

(** ** print_alignments *)

Section for_each_facts.
Context `{Collaborators}.

Lemma for_each_app {A} (l1 l2 : list A) (body : A → M unit) w :
  for_each (l1 ++ l2) body w = (for_each l1 body;; for_each l2 body) w.
Proof.
  revert w. induction l1 as [|a l1 IH]; intros w; [done|].
  cbn [app for_each]. rewrite !bind_run.
  destruct (body a w) as [[[]|e] w1]; [|done].
  by rewrite IH, bind_run.
Qed.

(** A loop whose bodies only print. *)
Lemma for_each_emits {A} (l : list A) (body : A → M unit)
    (f : A → list event) w :
  (∀ a w, a ∈ l →
     body a w = (Return (), mkWorld (model_set w) (trace w ++ f a))) →
  for_each l body w = (Return (), mkWorld (model_set w) (trace w ++ l ≫= f)).
Proof.
  revert w. induction l as [|a l IH]; intros w Hbody.
  - simpl. by rewrite app_nil_r, world_eta.
  - cbn [for_each]. rewrite bind_run, Hbody by left.
    rewrite IH by (intros; apply Hbody; by right).
    cbn [model_set trace]. by rewrite bind_cons, app_assoc.
Qed.

(** [for i in range(k, k + len(l))] with a body that reads [l[i - k]]. *)
Lemma for_each_seq_lookup {A} (l : list A) (look : nat → option A)
    (body : nat → option A → M unit) k w :
  (∀ i a, l !! i = Some a → look (k + i) = Some a) →
  for_each (seq k (length l)) (λ i, body i (look i)) w =
  for_each (zip (seq k (length l)) l) (λ '(i, a), body i (Some a)) w.
Proof.
  revert k w. induction l as [|a l IH]; intros k w Hlook; [done|].
  cbn [length seq zip zip_with for_each]. rewrite !bind_run.
  rewrite <-(Nat.add_0_r k) at 2. rewrite (Hlook 0 a) by done.
  destruct (body k (Some a) w) as [[[]|e] w1]; [|done].
  apply IH. intros i a' Hi. specialize (Hlook (S i) a' Hi).
  by rewrite Nat.add_succ_r in Hlook.
Qed.
End for_each_facts.

Section print_alignments_facts.
Context `{Collaborators}.

Lemma print_alignments_rows alignments n w :
  print_alignments alignments n w =
  for_each (enumerate alignments) (λ '(i, row), print_row i (Some row) n) w.
Proof.
  unfold print_alignments, enumerate.
  apply (for_each_seq_lookup alignments (λ i, alignments !! i)
           (λ i row, print_row i row n) 0 w).
  by intros i a.
Qed.

Lemma print_row_wide i row n w :
  n ≤ length row →
  print_row i (Some row) n w =
  (Return (), mkWorld (model_set w)
     (trace w ++ (enumerate (take n row) ≫= λ '(j, a),
                    [PrintAlignmentHeader i j; PrintAlignment a]))).
Proof.
  intros Hn. unfold print_row, enumerate.
  replace (seq 0 n) with (seq 0 (length (take n row)))
    by (rewrite length_take; f_equal; lia).
  etrans.
  { apply (for_each_seq_lookup (take n row) (λ j, row !! j)
             (λ j o, emit (PrintAlignmentHeader i j);;
                     match o with
                     | Some a => emit (PrintAlignment a)
                     | None => raise IndexError
                     end) 0 w).
    intros j a Hj. by apply lookup_take_Some in Hj as [? _]. }
  apply for_each_emits. intros [j a] w' _.
  rewrite bind_run. unfold emit. cbn. by rewrite <-app_assoc.
Qed.

Lemma print_row_short i row n w :
  length row < n →
  print_row i (Some row) n w =
  (Raise IndexError, mkWorld (model_set w)
     (trace w ++ (enumerate row ≫= λ '(j, a),
                    [PrintAlignmentHeader i j; PrintAlignment a])
        ++ [PrintAlignmentHeader i (length row)])).
Proof.
  intros Hn. unfold print_row.
  replace n with (length row + S (n - S (length row))) by lia.
  rewrite seq_app, for_each_app, bind_run.
  pose proof (print_row_wide i row (length row) w (Nat.le_refl _)) as Hw.
  unfold print_row in Hw. rewrite Hw, take_ge by done.
  cbn [seq for_each plus]. rewrite bind_run, bind_run.
  unfold emit at 1. cbn [fst snd model_set trace mbind option_bind].
  rewrite (lookup_ge_None_2 row (length row)) by done.
  unfold raise. by rewrite <-app_assoc.
Qed.

(** X13: [print_alignments] prints, row by row and model by model, a
    header and the entry [alignments[i][j]], and touches nothing else,
    when every row has an entry for every model; at the first row that is
    too short it prints the entries the row has, the header of the
    missing one, and fails with [IndexError]. *)
Theorem print_alignments_row_by_row alignments n w :
  (Forall (λ row, n ≤ length row) alignments →
   print_alignments alignments n w =
   (Return (), mkWorld (model_set w) (trace w ++ alignment_lines alignments n)))
  ∧ (∀ pre row post,
       alignments = pre ++ row :: post →
       Forall (λ r, n ≤ length r) pre → length row < n →
       print_alignments alignments n w =
       (Raise IndexError,
        mkWorld (model_set w)
          (trace w ++ alignment_lines (pre ++ [row]) n
             ++ [PrintAlignmentHeader (length pre) (length row)]))).
Proof.
  split.
  - intros Hwide. rewrite print_alignments_rows. unfold alignment_lines.
    apply for_each_emits. intros [i row] w' Hin.
    apply print_row_wide. apply elem_of_zip_r in Hin.
    by eapply Forall_forall in Hwide.
  - intros pre row post -> Hwide Hshort.
    rewrite print_alignments_rows. unfold alignment_lines, enumerate.
    rewrite !length_app. cbn [length].
    rewrite !seq_app, !zip_with_app by (by rewrite length_seq).
    cbn [seq zip_with].
    rewrite for_each_app, bind_run.
    rewrite (for_each_emits _ _ (λ '(i, row),
               enumerate (take n row) ≫= λ '(j, a),
                 [PrintAlignmentHeader i j; PrintAlignment a])).
    + cbn [for_each]. rewrite bind_run, print_row_short by done.
      cbn [model_set trace plus].
      rewrite bind_app, bind_cons. cbn [mbind list_bind].
      rewrite app_nil_r, (take_ge row n) by lia.
      by rewrite <-!app_assoc.
    + intros [i r] w' Hin. apply print_row_wide.
      apply elem_of_zip_r in Hin. by eapply Forall_forall in Hwide.
Qed.
End print_alignments_facts.

(** ** Empty beams *)

Lemma enumerate_app {A} (l1 l2 : list A) :
  enumerate (l1 ++ l2)
  = enumerate l1 ++ zip (seq (length l1) (length l2)) l2.
Proof.
  unfold enumerate. rewrite length_app, seq_app, zip_with_app; [done|].
  by rewrite length_seq.
Qed.

Section empty_beam.
Context `{Collaborators}.
Variables (session : Session) (config0 : Config) (models : list Model).
Variables (beam_size minibatch_size : nat).
Variables (alpha : Qc) (ra : bool) (num_to_target : Dict).

Local Abbreviation search :=
  (search_minibatch session config0 models beam_size alpha ra).

Lemma one_best_lines n k (pre : list Beam) :
  zip (seq k (length pre)) pre
    ≫= (λ '(i, beam), beam_lines false num_to_target n i beam)
  = best_line num_to_target <$> omap head pre.
Proof.
  revert k. induction pre as [|beam pre IH]; intros k; [done|].
  cbn [length seq zip zip_with]. rewrite bind_cons, IH.
  by destruct beam.
Qed.

(** A maxibatch that was read and searched, up to its first write. *)
Lemma translate_maxibatch_writes nbest maxibatch n w minibatches idxs
    ordered :
  ready models w →
  read_all_lines config0 maxibatch minibatch_size = inr (minibatches, idxs) →
  (ra = true →
   Forall (λ row : list Align, length models ≤ length row)
     (minibatches ≫= λ x, (search x).2)) →
  fancy_index (minibatches ≫= λ x, (search x).1) (argsort idxs)
    = Some ordered →
  ∃ evs ms,
    Forall (search_event alpha) evs
    ∧ translate_maxibatch session config0 beam_size nbest minibatch_size
        alpha ra maxibatch num_to_target n w
      = for_each (enumerate ordered)
          (λ '(i, beam), write_beam nbest num_to_target n i beam)
          (mkWorld ms (trace w ++ EnterTranslateMaxibatch maxibatch n :: evs)).
Proof.
  intros Hr Hread Hrows Hord. unfold translate_maxibatch.
  rewrite bind_run. unfold emit at 1. cbn [fst snd]. rewrite Hread.
  rewrite bind_run.
  edestruct (translate_minibatches_run session config0 models beam_size
               alpha ra minibatches n [] [])
    as (evs1 & w1 & -> & Hr1 & Htr1 & Hevs1);
    [split; [apply Hr|apply Hr]|].
  cbn [model_set trace] in Htr1. rewrite !app_nil_l, bind_run.
  assert (∃ evs2,
    (if ra then self ← get_self;
                print_alignments (minibatches ≫= λ x, (search x).2)
                  (length (_models self))
     else mret ()) w1
    = (Return (), mkWorld (model_set w1) (trace w1 ++ evs2))
    ∧ Forall (search_event alpha) evs2) as (evs2 & -> & Hevs2).
  { destruct ra eqn:Hra.
    - rewrite bind_run. unfold get_self. cbn [fst snd].
      destruct Hr1 as [-> _]. apply print_alignments_run. by apply Hrows.
    - exists []. by rewrite app_nil_r, world_eta. }
  rewrite Hord. exists (evs1 ++ evs2), (model_set w1).
  split; [by apply Forall_app|].
  by rewrite Htr1, <-!app_assoc.
Qed.

(** X14: when the search returns an empty beam for a sentence of a
    maxibatch, 1-best output fails with [IndexError] at that sentence,
    after the lines of the sentences before it in the maxibatch have been
    written; n-best output writes no line for that sentence and goes
    on with the next one. *)
Theorem empty_beam_stops_one_best maxibatch n w minibatches idxs pre post :
  ready models w →
  read_all_lines config0 maxibatch minibatch_size = inr (minibatches, idxs) →
  (ra = true →
   Forall (λ row : list Align, length models ≤ length row)
     (minibatches ≫= λ x, (search x).2)) →
  fancy_index (minibatches ≫= λ x, (search x).1) (argsort idxs)
    = Some (pre ++ [] :: post) →
  Forall (λ beam : Beam, beam ≠ []) pre →
  (∃ evs w',
     translate_maxibatch session config0 beam_size false minibatch_size
       alpha ra maxibatch num_to_target n w = (Raise IndexError, w')
     ∧ trace w' = trace w ++ EnterTranslateMaxibatch maxibatch n :: evs
                    ++ (Write <$> (best_line num_to_target <$> omap head pre))
     ∧ written evs = [])
  ∧ (∃ evs w',
       translate_maxibatch session config0 beam_size true minibatch_size
         alpha ra maxibatch num_to_target n w = (Return (), w')
       ∧ trace w' = trace w ++ EnterTranslateMaxibatch maxibatch n :: evs
                      ++ (Write <$>
                          (enumerate pre ≫= λ '(i, beam),
                             nbest_line num_to_target (n + i) <$> beam)
                          ++ (zip (seq (S (length pre)) (length post)) post
                                ≫= λ '(i, beam),
                                  nbest_line num_to_target (n + i) <$> beam))
       ∧ written evs = []).
Proof.
  intros Hr Hread Hrows Hord Hpre. split.
  - destruct (translate_maxibatch_writes false maxibatch n w minibatches
                idxs _ Hr Hread Hrows Hord) as (evs & ms & Hevs & ->).
    rewrite enumerate_app, for_each_app, bind_run.
    rewrite write_beams_run.
    + cbn [length seq zip zip_with for_each write_beam]. rewrite bind_run.
      unfold raise. cbn [model_set trace].
      eexists evs, _. split_and!; [done| |by eapply search_event_written].
      cbn [trace]. unfold enumerate. rewrite one_best_lines.
      by rewrite <-app_assoc.
    + right. apply Forall_forall. intros [i beam] Hin%elem_of_zip_r.
      by eapply Forall_forall in Hpre.
  - destruct (translate_maxibatch_writes true maxibatch n w minibatches
                idxs _ Hr Hread Hrows Hord) as (evs & ms & Hevs & ->).
    rewrite write_beams_run by (by left).
    eexists evs, _. split_and!; [done| |by eapply search_event_written].
    cbn [trace]. rewrite enumerate_app. cbn [length seq zip zip_with].
    rewrite bind_app, bind_cons. cbn [beam_lines fmap list_fmap app].
    by rewrite <-app_assoc.
Qed.
End empty_beam.

(** * The small instance, run *)

Section Demo_examples.
Import Demo.

(** The scenario of the specification: two lines, the longer one first,
    [minibatch_size = 2], [maxibatch_size = 1], [beam_size = 1], 1-best.
    [read_all_lines] sorts the shorter line to the front; the output is in
    the order of the input. *)
Example demo_scenario_sorted :
  read_all_lines (H := collaborators) ()
    (readlines ("a b c" +:+ newline +:+ "a" +:+ newline)) 2
  = inr ([[[[97]]; [[97]; [98]; [99]]]], [1; 0]).
Proof. vm_compute. reflexivity. Qed.

Example demo_scenario_output :
  written (trace (translate_file (H := collaborators)
                    ("a b c" +:+ newline +:+ "a" +:+ newline) ()
                    [scorer 5] [()] (Some 1) None (Some 2) (Some 1) None
                    None).2)
  = ["2 1 2 0" +:+ newline; "2 0" +:+ newline].
Proof. vm_compute. reflexivity. Qed.

(** n-best output, raw costs ([normalization_alpha = 0]), one maxibatch per
    line: three lines per sentence, under the index of the sentence, in
    ascending order of cost. *)
Example demo_nbest_output :
  written (trace (translate_file (H := collaborators) input ()
                    [scorer 5] [()] (Some 3) (Some true) (Some 1) (Some 1)
                    (Some 0%Qc) None).2)
  = ["0 ||| 1 2 0 ||| 3/1" +:+ newline;
     "0 ||| 1 2 1 0 ||| 4/1" +:+ newline;
     "0 ||| 1 2 1 1 ||| 4/1" +:+ newline;
     "1 ||| 2 0 ||| 2/1" +:+ newline;
     "1 ||| 2 1 0 ||| 3/1" +:+ newline;
     "1 ||| 2 1 1 0 ||| 4/1" +:+ newline].
Proof. vm_compute. reflexivity. Qed.

(** The same with the scorer configured twice: the same translations, at
    twice the cost. *)
Example demo_ensemble_output :
  written (trace (translate_file (H := collaborators) input ()
                    [scorer 5; scorer 5] [()] (Some 3) (Some true) (Some 1)
                    (Some 1) (Some 0%Qc) None).2)
  = ["0 ||| 1 2 0 ||| 6/1" +:+ newline;
     "0 ||| 1 2 1 0 ||| 8/1" +:+ newline;
     "0 ||| 1 2 1 1 ||| 8/1" +:+ newline;
     "1 ||| 2 0 ||| 4/1" +:+ newline;
     "1 ||| 2 1 0 ||| 6/1" +:+ newline;
     "1 ||| 2 1 1 0 ||| 8/1" +:+ newline].
Proof. vm_compute. reflexivity. Qed.

(** Two maxibatches of one minibatch each: the graph is built for the first
    search and used again for the second. *)
Example demo_graph_built_once :
  graphs_built (trace (translate_file (H := collaborators) input ()
                         [scorer 5] [()] (Some 3) (Some true) (Some 1)
                         (Some 1) (Some 0%Qc) None).2) = 1
  ∧ length (search_alphas
              (trace (translate_file (H := collaborators) input ()
                        [scorer 5] [()] (Some 3) (Some true) (Some 1)
                        (Some 1) (Some 0%Qc) None).2)) = 2.
Proof. split; vm_compute; reflexivity. Qed.

(** A malformed second line, one line per maxibatch: the first line is
    translated, then the run exits with status 1. *)
Example demo_bad_input :
  (translate_file (H := collaborators) bad_input () [scorer 5] [()]
     (Some 1) None (Some 1) (Some 1) None None).1 = Raise (SystemExit 1)
  ∧ written (trace (translate_file (H := collaborators) bad_input ()
                      [scorer 5] [()] (Some 1) None (Some 1) (Some 1) None
                      None).2)
    = ["1 2 0" +:+ newline].
Proof. split; vm_compute; reflexivity. Qed.

(** The same lines in one maxibatch: nothing is written, and the maxibatch
    is entered once. *)
Example demo_bad_input_one_maxibatch :
  (translate_file (H := collaborators) bad_input () [scorer 5] [()]
     (Some 1) None (Some 2) (Some 2) None None).1 = Raise (SystemExit 1)
  ∧ written (trace (translate_file (H := collaborators) bad_input ()
                      [scorer 5] [()] (Some 1) None (Some 2) (Some 2) None
                      None).2) = []
  ∧ entered (trace (translate_file (H := collaborators) bad_input ()
                      [scorer 5] [()] (Some 1) None (Some 2) (Some 2) None
                      None).2)
    = [(["ab" +:+ newline; "c|d" +:+ newline; "e" +:+ newline], 0)].
Proof. split_and!; vm_compute; reflexivity. Qed.
End Demo_examples.

(** * The claims on the small instance *)

Section Demo_witnesses.
Import Demo.

Lemma demo_contract models beam_size alpha ra :
  search_contract (H := collaborators) () () models beam_size alpha ra.
Proof.
  intros x. unfold search_minibatch. simpl.
  destruct (engine_beam_search_shape vocab_size eos pow models x beam_size
              alpha maxlen) as [Hlen Hall]; [unfold vocab_size; lia|].
  split_and!; [done..|]. intros _. constructor.
Defined.

Lemma demo_input_well_formed :
  Forall (λ line, ∃ p, parse_sentence (Collaborators := collaborators) ()
                         line = inr p)
    (readlines input).
Proof. vm_compute. repeat constructor; eexists; reflexivity. Defined.


Lemma translate_file_maxibatches_witness :
  ∃ w,
    translate_file (H := collaborators) input () [scorer 5] [()]
      (Some 2) (Some true) (Some 1) (Some 1) (Some 1%Qc) (Some false)
      = (Return 2, w)
    ∧ entered (trace w) = numbered 0 (maxibatches 1 (readlines input)).
Proof.
  destruct (translate_file_maxibatches (H := collaborators) ()
              [scorer 5] () [] 2 1 1 1%Qc false true input)
    as (w & Hrun & He & _);
    [lia|by left|apply demo_input_well_formed|apply demo_contract|].
  exists w. split; [exact Hrun|exact He].
Defined.

Lemma data_format_error_aborts_witness :
  ∃ w,
    translate_file (H := collaborators) bad_input () [scorer 5] [()]
      (Some 2) (Some false) (Some 1) (Some 1) (Some 1%Qc) (Some false)
      = (Raise (SystemExit 1), w)
    ∧ entered (trace w) =
        [(["ab" +:+ newline], 0); (["c|d" +:+ newline], 1)].
Proof.
  destruct (data_format_error_aborts (H := collaborators) ()
              [scorer 5] () [] 2 1 1 1%Qc false false bad_input
              [["ab" +:+ newline]] ["c|d" +:+ newline]
              [["e" +:+ newline]]
              "Expected 1 factors, but input word has 2")
    as (_ & w & evs & Hrun & _ & _ & He);
    [reflexivity|lia|right; lia| |apply demo_contract|reflexivity|].
  { repeat constructor. eexists. reflexivity. }
  exists w. split; [exact Hrun|exact He].
Defined.

Lemma translate_file_nbest_lines_witness :
  ∃ w,
    translate_file (H := collaborators) input () [scorer 5] [()]
      (Some 3) (Some true) (Some 2) (Some 1) (Some 1%Qc) (Some false)
      = (Return 2, w)
    ∧ entered (trace w) = numbered 0 (maxibatches 2 (readlines input)).
Proof.
  destruct (translate_file_nbest_lines (H := collaborators) ()
              [scorer 5] () [] 3 2 1 1%Qc false input)
    as (w & Hrun & _ & _ & He & _);
    [lia|apply demo_input_well_formed|apply demo_contract|].
  exists w. split; [exact Hrun|exact He].
Defined.

Lemma beam_has_beam_size_sorted_hypotheses_witness :
  length (search_sentence vocab_size eos pow [scorer 5] 3 1%Qc maxlen
            [[97]; [98]]) = 3.
Proof.
  apply (beam_has_beam_size_sorted_hypotheses vocab_size eos pow
           [scorer 5] 3 1%Qc maxlen [[97]; [98]] []).
  unfold eos, vocab_size. lia.
Defined.

Lemma normalization_alpha_defaults_witness :
  normalize pow 0 (mkHypothesis [1; 0] (Finite (Qc_of_Z 3)) true [0])
  = Finite (Qc_of_Z 3).
Proof.
  apply (normalization_alpha_defaults (H := collaborators)
           (Hidden := nat) pow).
  intros len. reflexivity.
Defined.
End Demo_witnesses.

(** * The further properties on the small instance *)

Section Demo_further.
Import Demo.

Lemma translate_file_progress_log_witness :
  ∃ sizes,
    logged (trace (translate_file (H := collaborators) input () [scorer 5]
                     [()] (Some 2) (Some false) (Some 1) (Some 2)
                     (Some 1%Qc) (Some false)).2)
    = running_totals 0 sizes
    ∧ sum_list sizes = length (readlines input).
Proof.
  destruct (translate_file_progress_log (H := collaborators) ()
              [scorer 5] () [] 2 1 2 1%Qc false false input)
    as (sizes & Hl & _ & Hsum & _);
    [lia|right; lia|apply demo_input_well_formed|apply demo_contract|].
  exists sizes. split; [exact Hl|exact Hsum].
Defined.

Lemma translate_file_single_maxibatch_witness :
  entered (trace (translate_file (H := collaborators) input () [scorer 5]
                    [()] (Some 1) None (Some 2) (Some 1) None None).2)
  = [(readlines input, 0)].
Proof.
  apply (translate_file_single_maxibatch (H := collaborators) input ()
           [scorer 5] () [] (Some 1) None (Some 2) (Some 1) None None).
  - right. vm_compute. lia.
  - intros Hempty. vm_compute in Hempty. discriminate Hempty.
Defined.

(** A beam of size 0: the search returns an empty beam for every
    sentence, and 1-best output fails at the first one. *)
Lemma empty_beam_stops_one_best_witness :
  ∃ w',
    translate_maxibatch (H := collaborators) () () 0 false 2 1%Qc false
      ["a b c" +:+ newline; "a" +:+ newline] () 0
      (mkWorld (__init__ (H := collaborators) [scorer 5] [()]) [])
    = (Raise IndexError, w').
Proof.
  destruct (empty_beam_stops_one_best (H := collaborators) () ()
              [scorer 5] 0 2 1%Qc false ()
              ["a b c" +:+ newline; "a" +:+ newline] 0
              (mkWorld (__init__ (H := collaborators) [scorer 5] [()]) [])
              [[[[97]]; [[97]; [98]; [99]]]] [1; 0] [] [[]])
    as [(evs & w' & Hrun & _) _].
  - split; [reflexivity|]. intros g Hg. discriminate Hg.
  - vm_compute. reflexivity.
  - intros Hra. discriminate Hra.
  - vm_compute. reflexivity.
  - constructor.
  - exists w'. exact Hrun.
Defined.
End Demo_further.
